(** * kbfs-beta: block operations, request utilities and quota reclamation

    A shallow embedding of [BlockOpsStandard] (Get, Ready, Put, Delete), of
    the request helpers [runUnlessCanceled] and [MakeRandomRequestID], and of
    the per-folder quota reclamation run, with the properties the
    specification states about them. *)

From Stdlib Require Import ZArith NArith List String Ascii Lia.
From Stdlib.Strings Require Import Byte.
From stdpp Require Import base gmap strings list fin_maps.

Local Open Scope Z_scope.
#[local] Set Warnings "-clear-no-such-hyp".

(** ** Go values shared by the packages *)

(** A non-nil value of Go's [error] interface. [TooLowByteCountError] is the
    one error type the block operations construct themselves; every other
    error comes out of a collaborator and is opaque to this code. *)
Inductive error : Type :=
| TooLowByteCountError (ExpectedMinByteCount ByteCount : Z)
| ErrOther (msg : string).

(** A Go variable of type [error]: [None] is [nil]. *)
Definition goerror : Type := option error.

Definition isErr (err : goerror) : bool :=
  match err with Some _ => true | None => false end.

(** The zero value every Go type has. *)
Class Zero (T : Type) : Type := zero : T.

(** [BlockPointer], reduced to the two fields the block operations read.
    The pointer is also what the block server receives as the block's
    context. *)
Record BlockPointer {BlockID BlockRefNonce : Type} : Type := mkBlockPointer {
  ID : BlockID;
  RefNonce : BlockRefNonce
}.
Arguments BlockPointer : clear implicits.
Arguments mkBlockPointer {BlockID BlockRefNonce} _ _.

(** ** BlockOpsStandard *)

Module BlockOps.

Section WithCollaborators.

(** Types declared elsewhere in the package. *)
Context {Ctx RootMetadata TlfID BlockID BlockRefNonce Block : Type}.
Context {TLFCryptKey BlockCryptKeyServerHalf BlockCryptKey EncryptedBlock : Type}.
Context `{EqDecision BlockRefNonce}.
Context `{Zero BlockID} `{Zero BlockCryptKeyServerHalf}.

(** [md.ID], the folder a revision belongs to. *)
Variable mdID : RootMetadata -> TlfID.
Variable zeroBlockRefNonce : BlockRefNonce.

(** The state the collaborators keep between calls (the store's content,
    the random source, a mock's expectations). *)
Context {W : Type}.

Abbreviation Ptr := (BlockPointer BlockID BlockRefNonce).

Record ReadyBlockData : Type := mkReadyBlockData {
  buf : list byte;
  serverHalf : BlockCryptKeyServerHalf
}.

#[export] Instance ReadyBlockData_zero : Zero ReadyBlockData :=
  {| buf := []; serverHalf := zero |}.

(** Modelled from the spec: [ReadyBlockData.GetEncodedSize] is not in the
    sampled sources; it is the encoded (ciphertext) byte count, the length
    of the buffer. *)
Definition GetEncodedSize (r : ReadyBlockData) : Z :=
  Z.of_nat (length (buf r)).

(** *** The interfaces [Config] hands out

    A method takes the collaborators' state and returns its Go results
    (values and error together, as Go does) with the new state. *)

Record BlockServer : Type := {
  BlockServer_Get :
    Ctx -> BlockID -> Ptr -> W -> (list byte * BlockCryptKeyServerHalf * goerror) * W;
  BlockServer_Put :
    Ctx -> BlockID -> TlfID -> Ptr -> list byte -> BlockCryptKeyServerHalf ->
    W -> goerror * W;
  BlockServer_AddBlockReference :
    Ctx -> BlockID -> TlfID -> Ptr -> W -> goerror * W;
  BlockServer_RemoveBlockReference :
    Ctx -> BlockID -> TlfID -> Ptr -> W -> goerror * W
}.

Record KeyManager : Type := {
  KeyManager_GetTLFCryptKeyForEncryption :
    Ctx -> RootMetadata -> W -> (TLFCryptKey * goerror) * W;
  KeyManager_GetTLFCryptKeyForBlockDecryption :
    Ctx -> RootMetadata -> Ptr -> W -> (TLFCryptKey * goerror) * W
}.

Record Crypto : Type := {
  Crypto_MakeRandomBlockCryptKeyServerHalf :
    W -> (BlockCryptKeyServerHalf * goerror) * W;
  Crypto_UnmaskBlockCryptKey :
    BlockCryptKeyServerHalf -> TLFCryptKey -> W -> (BlockCryptKey * goerror) * W;
  Crypto_EncryptBlock :
    Block -> BlockCryptKey -> W -> (Z * EncryptedBlock * goerror) * W;
  (* the last argument is the block decrypted into; its new content is
     returned *)
  Crypto_DecryptBlock :
    EncryptedBlock -> BlockCryptKey -> Block -> W -> (Block * goerror) * W;
  Crypto_MakePermanentBlockID :
    list byte -> W -> (BlockID * goerror) * W
}.

Record Codec : Type := {
  Codec_Encode : EncryptedBlock -> W -> (list byte * goerror) * W;
  (* decodes into a variable that starts at its zero value; the
     variable's content after the call is returned *)
  Codec_Decode : list byte -> W -> (EncryptedBlock * goerror) * W
}.

Record Config : Type := {
  config_BlockServer : BlockServer;
  config_KeyManager : KeyManager;
  config_Crypto : Crypto;
  config_Codec : Codec
}.

Record BlockOpsStandard : Type := { config : Config }.

(** *** Calls and the monad that records them *)

Inductive Call : Type :=
| CallBlockServerGet (ctx : Ctx) (id : BlockID) (context : Ptr)
| CallBlockServerPut (ctx : Ctx) (id : BlockID) (tlfID : TlfID) (context : Ptr)
    (buf : list byte) (serverHalf : BlockCryptKeyServerHalf)
| CallAddBlockReference (ctx : Ctx) (id : BlockID) (tlfID : TlfID) (context : Ptr)
| CallRemoveBlockReference (ctx : Ctx) (id : BlockID) (tlfID : TlfID) (context : Ptr)
| CallGetTLFCryptKeyForEncryption (ctx : Ctx) (md : RootMetadata)
| CallGetTLFCryptKeyForBlockDecryption (ctx : Ctx) (md : RootMetadata) (blockPtr : Ptr)
| CallMakeRandomBlockCryptKeyServerHalf
| CallUnmaskBlockCryptKey (serverHalf : BlockCryptKeyServerHalf) (key : TLFCryptKey)
| CallEncryptBlock (block : Block) (key : BlockCryptKey)
| CallDecryptBlock (encryptedBlock : EncryptedBlock) (key : BlockCryptKey)
| CallEncode (encryptedBlock : EncryptedBlock)
| CallDecode (buf : list byte)
| CallMakePermanentBlockID (buf : list byte).

Definition isStoreCall (c : Call) : bool :=
  match c with
  | CallBlockServerGet _ _ _ | CallBlockServerPut _ _ _ _ _ _
  | CallAddBlockReference _ _ _ _ | CallRemoveBlockReference _ _ _ _ => true
  | _ => false
  end.

Definition isDecrypt (c : Call) : bool :=
  match c with
  | CallDecryptBlock _ _ => true
  | _ => false
  end.

Definition isDecodeOrDecrypt (c : Call) : bool :=
  match c with
  | CallDecode _ | CallDecryptBlock _ _ => true
  | _ => false
  end.

(** The collaborators' state and the calls made so far, oldest first. *)
Record World : Type := mkWorld { mock : W; calls : list Call }.

Definition M (A : Type) : Type := World -> A * World.

Definition ret {A} (a : A) : M A := fun w => (a, w).

Definition bind {A B} (m : M A) (k : A -> M B) : M B :=
  fun w => let (a, w') := m w in k a w'.

(** One interface call: logged, then run on the collaborators' state. *)
Definition invoke {A} (c : Call) (f : W -> A * W) : M A :=
  fun w => let (a, s) := f (mock w) in
           (a, {| mock := s; calls := calls w ++ [c] |}).

Notation "'let*' p ':=' m 'in' k" := (bind m (fun p => k))
  (at level 10, p pattern, m at level 100, k at level 200).

Section Methods.

Variable b : BlockOpsStandard.

Definition bserv_Get ctx id (context : Ptr) :=
  invoke (CallBlockServerGet ctx id context)
    (BlockServer_Get (config_BlockServer (config b)) ctx id context).

Definition bserv_Put ctx id tlfID (context : Ptr) buf serverHalf :=
  invoke (CallBlockServerPut ctx id tlfID context buf serverHalf)
    (BlockServer_Put (config_BlockServer (config b)) ctx id tlfID context
       buf serverHalf).

Definition bserv_AddBlockReference ctx id tlfID (context : Ptr) :=
  invoke (CallAddBlockReference ctx id tlfID context)
    (BlockServer_AddBlockReference (config_BlockServer (config b)) ctx id
       tlfID context).

Definition bserv_RemoveBlockReference ctx id tlfID (context : Ptr) :=
  invoke (CallRemoveBlockReference ctx id tlfID context)
    (BlockServer_RemoveBlockReference (config_BlockServer (config b)) ctx
       id tlfID context).

Definition GetTLFCryptKeyForEncryption ctx md :=
  invoke (CallGetTLFCryptKeyForEncryption ctx md)
    (KeyManager_GetTLFCryptKeyForEncryption (config_KeyManager (config b))
       ctx md).

Definition GetTLFCryptKeyForBlockDecryption ctx md (blockPtr : Ptr) :=
  invoke (CallGetTLFCryptKeyForBlockDecryption ctx md blockPtr)
    (KeyManager_GetTLFCryptKeyForBlockDecryption
       (config_KeyManager (config b)) ctx md blockPtr).

Definition MakeRandomBlockCryptKeyServerHalf :=
  invoke CallMakeRandomBlockCryptKeyServerHalf
    (Crypto_MakeRandomBlockCryptKeyServerHalf (config_Crypto (config b))).

Definition UnmaskBlockCryptKey serverHalf key :=
  invoke (CallUnmaskBlockCryptKey serverHalf key)
    (Crypto_UnmaskBlockCryptKey (config_Crypto (config b)) serverHalf key).

Definition EncryptBlock block key :=
  invoke (CallEncryptBlock block key)
    (Crypto_EncryptBlock (config_Crypto (config b)) block key).

Definition DecryptBlock encryptedBlock key block :=
  invoke (CallDecryptBlock encryptedBlock key)
    (Crypto_DecryptBlock (config_Crypto (config b)) encryptedBlock key block).

Definition MakePermanentBlockID buf :=
  invoke (CallMakePermanentBlockID buf)
    (Crypto_MakePermanentBlockID (config_Crypto (config b)) buf).

Definition Encode encryptedBlock :=
  invoke (CallEncode encryptedBlock)
    (Codec_Encode (config_Codec (config b)) encryptedBlock).

Definition Decode buf :=
  invoke (CallDecode buf) (Codec_Decode (config_Codec (config b)) buf).

(** [Get]: the result is the content of [block] after the call and the
    error. [block] is written by [DecryptBlock] only. *)
Definition Get (ctx : Ctx) (md : RootMetadata) (blockPtr : Ptr)
    (block : Block) : M (Block * goerror) :=
  let* (buf, blockServerHalf, err) := bserv_Get ctx (ID blockPtr) blockPtr in
  if isErr err then ret (block, err) else
  let* (tlfCryptKey, err) :=
    GetTLFCryptKeyForBlockDecryption ctx md blockPtr in
  if isErr err then ret (block, err) else
  (* construct the block crypt key *)
  let* (blockCryptKey, err) :=
    UnmaskBlockCryptKey blockServerHalf tlfCryptKey in
  if isErr err then ret (block, err) else
  let* (encryptedBlock, err) := Decode buf in
  if isErr err then ret (block, err) else
  (* decrypt the block *)
  DecryptBlock encryptedBlock blockCryptKey block.

(** The named results of [Ready]. *)
Record ReadyResults : Type := mkReadyResults {
  id : BlockID;
  plainSize : Z;
  readyBlockData : ReadyBlockData;
  err : goerror
}.

(** The body of [Ready] up to a [return]: the named results as they
    stand there. They start at their zero values; [plainSize] is
    assigned by the call to [EncryptBlock] and [id] by the call to
    [MakePermanentBlockID], whatever error comes with them. *)
Definition Ready_body (ctx : Ctx) (md : RootMetadata) (block : Block)
    : M ReadyResults :=
  let id : BlockID := zero in
  let plainSize := 0 in
  let readyBlockData : ReadyBlockData := zero in
  let* (tlfCryptKey, err) := GetTLFCryptKeyForEncryption ctx md in
  if isErr err then ret (mkReadyResults id plainSize readyBlockData err) else
  (* New server key half for the block. *)
  let* (serverHalf, err) := MakeRandomBlockCryptKeyServerHalf in
  if isErr err then ret (mkReadyResults id plainSize readyBlockData err) else
  let* (blockKey, err) := UnmaskBlockCryptKey serverHalf tlfCryptKey in
  if isErr err then ret (mkReadyResults id plainSize readyBlockData err) else
  let* (plainSize, encryptedBlock, err) := EncryptBlock block blockKey in
  if isErr err then ret (mkReadyResults id plainSize readyBlockData err) else
  let* (buf, err) := Encode encryptedBlock in
  if isErr err then ret (mkReadyResults id plainSize readyBlockData err) else
  let readyBlockData := {| buf := buf; serverHalf := serverHalf |} in
  let encodedSize := GetEncodedSize readyBlockData in
  if encodedSize <? plainSize then
    ret (mkReadyResults id plainSize readyBlockData
           (Some (TooLowByteCountError plainSize encodedSize)))
  else
  let* (id, err) := MakePermanentBlockID buf in
  ret (mkReadyResults id plainSize readyBlockData err).

(** The deferred function of [Ready]. *)
Definition Ready_deferred (r : ReadyResults) : ReadyResults :=
  if isErr (err r) then
    {| id := zero; plainSize := 0; readyBlockData := zero; err := err r |}
  else r.

Definition Ready (ctx : Ctx) (md : RootMetadata) (block : Block)
    : M ReadyResults :=
  let* r := Ready_body ctx md block in
  ret (Ready_deferred r).

Definition Put (ctx : Ctx) (md : RootMetadata) (blockPtr : Ptr)
    (readyBlockData : ReadyBlockData) : M goerror :=
  if decide (RefNonce blockPtr = zeroBlockRefNonce) then
    bserv_Put ctx (ID blockPtr) (mdID md) blockPtr (buf readyBlockData)
      (serverHalf readyBlockData)
  else
    (* non-zero block refnonce means this is a new reference to an
       existing block. *)
    bserv_AddBlockReference ctx (ID blockPtr) (mdID md) blockPtr.

Definition Delete (ctx : Ctx) (md : RootMetadata) (id : BlockID)
    (context : Ptr) : M goerror :=
  let* err := bserv_RemoveBlockReference ctx id (mdID md) context in
  ret err.

(** *** Properties *)

Abbreviation keyManager := (config_KeyManager (config b)).
Abbreviation crypto := (config_Crypto (config b)).
Abbreviation codec := (config_Codec (config b)).
Abbreviation bserv := (config_BlockServer (config b)).

Ltac unfold_calls :=
  unfold bserv_Get, bserv_Put, bserv_AddBlockReference,
    bserv_RemoveBlockReference, GetTLFCryptKeyForEncryption,
    GetTLFCryptKeyForBlockDecryption, MakeRandomBlockCryptKeyServerHalf,
    UnmaskBlockCryptKey, EncryptBlock, DecryptBlock, MakePermanentBlockID,
    Encode, Decode, invoke, bind, ret.

(** What the deferred function leaves of the results. *)
Lemma Ready_deferred_err (r : ReadyResults) :
  err (Ready_deferred r) = err r.
Proof. destruct r as [i p d [e|]]; reflexivity. Qed.

Lemma Ready_deferred_ok (r : ReadyResults) :
  err r = None -> Ready_deferred r = r.
Proof. unfold Ready_deferred. intros ->. reflexivity. Qed.

Lemma Ready_deferred_failed (r : ReadyResults) (e : error) :
  err r = Some e ->
  Ready_deferred r =
    {| id := zero; plainSize := 0; readyBlockData := zero; err := Some e |}.
Proof. unfold Ready_deferred. intros ->. reflexivity. Qed.

(** C1. Once the block is encrypted and encoded: if the encoded byte count
    is smaller than the plaintext size, [Ready] fails with
    [TooLowByteCountError] carrying the plaintext size (expected) and the
    encoded size (actual), and the calls it made are the five pipeline calls,
    none of them a block server call; if the encoded byte count is at least
    the plaintext size, the check raises nothing: the error [Ready] returns
    is the one [MakePermanentBlockID] returned, nil when that succeeds. *)
Theorem Ready_integrity_check ctx md block w key s1 sh s2 bk s3 ps eb s4 bf s5 :
  KeyManager_GetTLFCryptKeyForEncryption keyManager ctx md (mock w)
    = ((key, None), s1) ->
  Crypto_MakeRandomBlockCryptKeyServerHalf crypto s1 = ((sh, None), s2) ->
  Crypto_UnmaskBlockCryptKey crypto sh key s2 = ((bk, None), s3) ->
  Crypto_EncryptBlock crypto block bk s3 = ((ps, eb, None), s4) ->
  Codec_Encode codec eb s4 = ((bf, None), s5) ->
  let pipeline :=
    [CallGetTLFCryptKeyForEncryption ctx md;
     CallMakeRandomBlockCryptKeyServerHalf;
     CallUnmaskBlockCryptKey sh key;
     CallEncryptBlock block bk;
     CallEncode eb] in
  (Z.of_nat (length bf) < ps ->
     Ready ctx md block w =
       ({| id := zero; plainSize := 0; readyBlockData := zero;
           err := Some (TooLowByteCountError ps (Z.of_nat (length bf))) |},
        {| mock := s5; calls := calls w ++ pipeline |})
     /\ forallb (fun c => negb (isStoreCall c)) pipeline = true)
  /\
  (ps <= Z.of_nat (length bf) ->
     forall i e s6,
       Crypto_MakePermanentBlockID crypto bf s5 = ((i, e), s6) ->
       Ready ctx md block w =
         (Ready_deferred
            {| id := i; plainSize := ps;
               readyBlockData := {| buf := bf; serverHalf := sh |};
               err := e |},
          {| mock := s6;
             calls := calls w ++ pipeline ++ [CallMakePermanentBlockID bf] |})
       /\ err (Ready ctx md block w).1 = e).
Proof.
  intros E1 E2 E3 E4 E5 pipeline.
  split.
  - intros Hlow. split; [|reflexivity].
    unfold Ready, Ready_body. unfold_calls.
    rewrite E1; cbn. rewrite E2; cbn. rewrite E3; cbn. rewrite E4; cbn.
    rewrite E5; cbn. unfold GetEncodedSize; cbn.
    apply Z.ltb_lt in Hlow. rewrite Hlow. cbn.
    unfold pipeline. repeat rewrite <- app_assoc. reflexivity.
  - intros Hhigh i e s6 E6.
    assert (Hrun : Ready ctx md block w =
      (Ready_deferred
         {| id := i; plainSize := ps;
            readyBlockData := {| buf := bf; serverHalf := sh |};
            err := e |},
       {| mock := s6;
          calls := calls w ++ pipeline ++ [CallMakePermanentBlockID bf] |})).
    { unfold Ready, Ready_body. unfold_calls.
      rewrite E1; cbn. rewrite E2; cbn. rewrite E3; cbn. rewrite E4; cbn.
      rewrite E5; cbn. unfold GetEncodedSize; cbn.
      apply Z.ltb_ge in Hhigh. rewrite Hhigh. cbn. rewrite E6. cbn.
      unfold pipeline. repeat rewrite <- app_assoc. reflexivity. }
    split; [exact Hrun|]. rewrite Hrun. cbn. apply Ready_deferred_err.
Qed.

(** C2. Whenever [Ready] returns an error, its three other results are the
    zero values: the zero BlockID, plain size 0 and the zero
    ReadyBlockData. *)
Theorem Ready_error_zero_outputs ctx md block w :
  err (Ready ctx md block w).1 <> None ->
  id (Ready ctx md block w).1 = zero
  /\ plainSize (Ready ctx md block w).1 = 0
  /\ readyBlockData (Ready ctx md block w).1 = zero.
Proof.
  unfold Ready, bind, ret.
  destruct (Ready_body ctx md block w) as [r w']. cbn.
  destruct (err r) as [e|] eqn:Er.
  - intros _. rewrite (Ready_deferred_failed r e Er). cbn. auto.
  - rewrite Ready_deferred_ok by exact Er. rewrite Er. congruence.
Qed.

(** C3. With the zero RefNonce, [Put] makes exactly one call, the block
    server's Put with the BlockID, the folder ID, the context, the encrypted
    buffer and the server half, and returns its error; with a non-zero
    RefNonce it makes exactly one call, AddBlockReference with the BlockID,
    the folder ID and the context, which carries no payload. *)
Theorem Put_store_call ctx md (blockPtr : Ptr) (data : ReadyBlockData) w :
  (RefNonce blockPtr = zeroBlockRefNonce ->
     Put ctx md blockPtr data w =
       ((BlockServer_Put bserv ctx (ID blockPtr) (mdID md) blockPtr
           (buf data) (serverHalf data) (mock w)).1,
        {| mock := (BlockServer_Put bserv ctx (ID blockPtr) (mdID md) blockPtr
                      (buf data) (serverHalf data) (mock w)).2;
           calls := calls w ++
             [CallBlockServerPut ctx (ID blockPtr) (mdID md) blockPtr
                (buf data) (serverHalf data)] |}))
  /\
  (RefNonce blockPtr <> zeroBlockRefNonce ->
     Put ctx md blockPtr data w =
       ((BlockServer_AddBlockReference bserv ctx (ID blockPtr) (mdID md)
           blockPtr (mock w)).1,
        {| mock := (BlockServer_AddBlockReference bserv ctx (ID blockPtr)
                      (mdID md) blockPtr (mock w)).2;
           calls := calls w ++
             [CallAddBlockReference ctx (ID blockPtr) (mdID md) blockPtr] |})).
Proof.
  unfold Put. split; intros Hn.
  - rewrite decide_True by exact Hn. unfold_calls.
    destruct (BlockServer_Put _ _ _ _ _ _ _ _); reflexivity.
  - rewrite decide_False by exact Hn. unfold_calls.
    destruct (BlockServer_AddBlockReference _ _ _ _ _ _); reflexivity.
Qed.

(** C6. A successful [Ready] made exactly these calls, in this order: the
    folder's encryption key, a new random server half, the block key
    unmasked from that server half and the folder key, the encryption of the
    block (whose plain size is the one returned), the encoding of the
    encrypted block, and MakePermanentBlockID on the encoded bytes, whose
    result is the BlockID returned. *)
Theorem Ready_success_steps ctx md block w r w' :
  Ready ctx md block w = (r, w') ->
  err r = None ->
  exists key s1 sh s2 bk s3 eb s4 s5,
    KeyManager_GetTLFCryptKeyForEncryption keyManager ctx md (mock w)
      = ((key, None), s1)
    /\ Crypto_MakeRandomBlockCryptKeyServerHalf crypto s1 = ((sh, None), s2)
    /\ Crypto_UnmaskBlockCryptKey crypto sh key s2 = ((bk, None), s3)
    /\ Crypto_EncryptBlock crypto block bk s3 = ((plainSize r, eb, None), s4)
    /\ Codec_Encode codec eb s4 = ((buf (readyBlockData r), None), s5)
    /\ serverHalf (readyBlockData r) = sh
    /\ plainSize r <= GetEncodedSize (readyBlockData r)
    /\ Crypto_MakePermanentBlockID crypto (buf (readyBlockData r)) s5
         = ((id r, None), mock w')
    /\ calls w' = calls w ++
         [CallGetTLFCryptKeyForEncryption ctx md;
          CallMakeRandomBlockCryptKeyServerHalf;
          CallUnmaskBlockCryptKey sh key;
          CallEncryptBlock block bk;
          CallEncode eb;
          CallMakePermanentBlockID (buf (readyBlockData r))].
Proof.
  unfold Ready, Ready_body. unfold_calls.
  destruct (KeyManager_GetTLFCryptKeyForEncryption _ _ _ _)
    as [[key e1] s1] eqn:E1.
  destruct e1; cbn; [intros [= <- <-]; discriminate|].
  destruct (Crypto_MakeRandomBlockCryptKeyServerHalf _ _)
    as [[sh e2] s2] eqn:E2.
  destruct e2; cbn; [intros [= <- <-]; discriminate|].
  destruct (Crypto_UnmaskBlockCryptKey _ _ _ _) as [[bk e3] s3] eqn:E3.
  destruct e3; cbn; [intros [= <- <-]; discriminate|].
  destruct (Crypto_EncryptBlock _ _ _ _) as [[[ps eb] e4] s4] eqn:E4.
  destruct e4; cbn; [intros [= <- <-]; discriminate|].
  destruct (Codec_Encode _ _ _) as [[bf e5] s5] eqn:E5.
  destruct e5; cbn; [intros [= <- <-]; discriminate|].
  unfold GetEncodedSize; cbn.
  destruct (Z.ltb_spec (Z.of_nat (length bf)) ps) as [Hlow|Hhigh]; cbn;
    [intros [= <- <-]; discriminate|].
  destruct (Crypto_MakePermanentBlockID _ _ _) as [[i e6] s6] eqn:E6. cbn.
  intros [= <- <-]. rewrite Ready_deferred_err. cbn. intros ->.
  rewrite Ready_deferred_ok by reflexivity. cbn.
  exists key, s1, sh, s2, bk, s3, eb, s4, s5.
  repeat rewrite <- app_assoc. cbn. repeat split; auto.
Qed.

(** C7. [Get] asks the block server for the bytes and server half under the
    pointer's BlockID, then the key manager for the folder's decryption key,
    unmasks the block key from the two, decodes the bytes and decrypts into
    the output block, in this order. The first step that fails ends the call
    with that step's error and no later step is made: nothing is decoded or
    decrypted when the block server or the key manager fails, nothing is
    decrypted when decoding fails, and the output block is then left as it
    was. *)
Theorem Get_steps_and_errors ctx md (blockPtr : Ptr) block w bf sh e1 s1 :
  BlockServer_Get bserv ctx (ID blockPtr) blockPtr (mock w)
    = ((bf, sh, e1), s1) ->
  let c1 := CallBlockServerGet ctx (ID blockPtr) blockPtr in
  let c2 := CallGetTLFCryptKeyForBlockDecryption ctx md blockPtr in
  (e1 <> None ->
     Get ctx md blockPtr block w
       = ((block, e1), {| mock := s1; calls := calls w ++ [c1] |})
     /\ forallb (fun c => negb (isDecodeOrDecrypt c)) [c1] = true)
  /\
  (e1 = None -> forall key e2 s2,
     KeyManager_GetTLFCryptKeyForBlockDecryption keyManager ctx md blockPtr s1
       = ((key, e2), s2) ->
     (e2 <> None ->
        Get ctx md blockPtr block w
          = ((block, e2), {| mock := s2; calls := calls w ++ [c1; c2] |})
        /\ forallb (fun c => negb (isDecodeOrDecrypt c)) [c1; c2] = true)
     /\
     (e2 = None -> forall bk e3 s3,
        Crypto_UnmaskBlockCryptKey crypto sh key s2 = ((bk, e3), s3) ->
        let c3 := CallUnmaskBlockCryptKey sh key in
        (e3 <> None ->
           Get ctx md blockPtr block w
             = ((block, e3),
                {| mock := s3; calls := calls w ++ [c1; c2; c3] |})
           /\ forallb (fun c => negb (isDecodeOrDecrypt c)) [c1; c2; c3]
              = true)
        /\
        (e3 = None -> forall eb e4 s4,
           Codec_Decode codec bf s3 = ((eb, e4), s4) ->
           let c4 := CallDecode bf in
           (e4 <> None ->
              Get ctx md blockPtr block w
                = ((block, e4),
                   {| mock := s4; calls := calls w ++ [c1; c2; c3; c4] |})
              /\ forallb (fun c => negb (isDecrypt c)) [c1; c2; c3; c4]
                 = true)
           /\
           (e4 = None -> forall out e5 s5,
              Crypto_DecryptBlock crypto eb bk block s4 = ((out, e5), s5) ->
              Get ctx md blockPtr block w
                = ((out, e5),
                   {| mock := s5;
                      calls := calls w ++
                        [c1; c2; c3; c4; CallDecryptBlock eb bk] |}))))).
Proof.
  intros E1 c1 c2. unfold Get. unfold_calls. rewrite E1. cbn.
  split.
  { destruct e1; [intros _; split; reflexivity|congruence]. }
  intros -> key e2 s2 E2. cbn. rewrite E2. cbn.
  split.
  { destruct e2; [intros _; repeat rewrite <- app_assoc; split; reflexivity
                 |congruence]. }
  intros -> bk e3 s3 E3. cbn. rewrite E3. cbn.
  split.
  { destruct e3; [intros _; repeat rewrite <- app_assoc; split; reflexivity
                 |congruence]. }
  intros -> eb e4 s4 E4. cbn. rewrite E4. cbn.
  split.
  { destruct e4; [intros _; repeat rewrite <- app_assoc; split; reflexivity
                 |congruence]. }
  intros -> out e5 s5 E5. cbn. rewrite E5.
  repeat rewrite <- app_assoc. reflexivity.
Qed.


(** *** Further properties of the block operations *)

(** X1. On every path, success or failure, [Ready] makes at most six calls
    and none of them goes to the block server: making a block ready has no
    effect on the store. *)
Theorem Ready_makes_no_store_call ctx md block w :
  exists new,
    calls (Ready ctx md block w).2 = calls w ++ new
    /\ forallb (fun c => negb (isStoreCall c)) new = true
    /\ (length new <= 6)%nat.
Proof.
  unfold Ready, Ready_body. unfold_calls.
  destruct (KeyManager_GetTLFCryptKeyForEncryption _ _ _ _) as [[key e1] s1].
  destruct e1; cbn;
    [eexists; split; [reflexivity|split; [reflexivity|cbn; lia]]|].
  destruct (Crypto_MakeRandomBlockCryptKeyServerHalf _ _) as [[sh e2] s2].
  destruct e2; cbn;
    [eexists; split; [rewrite <- !app_assoc; reflexivity
                     |split; [reflexivity|cbn; lia]]|].
  destruct (Crypto_UnmaskBlockCryptKey _ _ _ _) as [[bk e3] s3].
  destruct e3; cbn;
    [eexists; split; [rewrite <- !app_assoc; reflexivity
                     |split; [reflexivity|cbn; lia]]|].
  destruct (Crypto_EncryptBlock _ _ _ _) as [[[ps eb] e4] s4].
  destruct e4; cbn;
    [eexists; split; [rewrite <- !app_assoc; reflexivity
                     |split; [reflexivity|cbn; lia]]|].
  destruct (Codec_Encode _ _ _) as [[bf e5] s5].
  destruct e5; cbn;
    [eexists; split; [rewrite <- !app_assoc; reflexivity
                     |split; [reflexivity|cbn; lia]]|].
  destruct (GetEncodedSize _ <? ps); cbn;
    [eexists; split; [rewrite <- !app_assoc; reflexivity
                     |split; [reflexivity|cbn; lia]]|].
  destruct (Crypto_MakePermanentBlockID _ _ _) as [[i e6] s6]. cbn.
  eexists; split; [rewrite <- !app_assoc; reflexivity
                  |split; [reflexivity|cbn; lia]].
Qed.

(** X2. On every path [Get] reads the store exactly once, as its first
    call and under the pointer's BlockID, and makes no other block server
    call: it never puts a block, adds or removes a reference. *)
Theorem Get_reads_store_once ctx md (blockPtr : Ptr) block w :
  exists rest,
    calls (Get ctx md blockPtr block w).2
      = calls w ++ CallBlockServerGet ctx (ID blockPtr) blockPtr :: rest
    /\ forallb (fun c => negb (isStoreCall c)) rest = true
    /\ (length rest <= 4)%nat.
Proof.
  unfold Get. unfold_calls.
  destruct (BlockServer_Get _ _ _ _ _) as [[[bf sh] e1] s1].
  destruct e1; cbn;
    [exists []; split; [reflexivity|split; [reflexivity|cbn; lia]]|].
  destruct (KeyManager_GetTLFCryptKeyForBlockDecryption _ _ _ _ _)
    as [[key e2] s2].
  destruct e2; cbn;
    [eexists; split; [rewrite <- !app_assoc; reflexivity
                     |split; [reflexivity|cbn; lia]]|].
  destruct (Crypto_UnmaskBlockCryptKey _ _ _ _) as [[bk e3] s3].
  destruct e3; cbn;
    [eexists; split; [rewrite <- !app_assoc; reflexivity
                     |split; [reflexivity|cbn; lia]]|].
  destruct (Codec_Decode _ _ _) as [[eb e4] s4].
  destruct e4; cbn;
    [eexists; split; [rewrite <- !app_assoc; reflexivity
                     |split; [reflexivity|cbn; lia]]|].
  destruct (Crypto_DecryptBlock _ _ _ _ _) as [[out e5] s5]. cbn.
  eexists; split; [rewrite <- !app_assoc; reflexivity
                  |split; [reflexivity|cbn; lia]].
Qed.

(** X3. The first step of [Ready] that fails ends the call: its error is
    returned with zero outputs and no later step is made. When the key
    manager fails no server half is drawn; when the random source fails
    nothing is unmasked; when unmasking fails nothing is encrypted; when
    encryption fails nothing is encoded, and the plain size it reported is
    not returned; when encoding fails no BlockID is computed. *)
Theorem Ready_first_failure ctx md block w key e1 s1 :
  KeyManager_GetTLFCryptKeyForEncryption keyManager ctx md (mock w)
    = ((key, e1), s1) ->
  let failed e :=
    {| id := zero; plainSize := 0; readyBlockData := zero; err := e |} in
  let c1 := CallGetTLFCryptKeyForEncryption ctx md in
  let c2 := CallMakeRandomBlockCryptKeyServerHalf in
  (e1 <> None ->
     Ready ctx md block w
       = (failed e1, {| mock := s1; calls := calls w ++ [c1] |}))
  /\
  (e1 = None -> forall sh e2 s2,
     Crypto_MakeRandomBlockCryptKeyServerHalf crypto s1 = ((sh, e2), s2) ->
     (e2 <> None ->
        Ready ctx md block w
          = (failed e2, {| mock := s2; calls := calls w ++ [c1; c2] |}))
     /\
     (e2 = None -> forall bk e3 s3,
        Crypto_UnmaskBlockCryptKey crypto sh key s2 = ((bk, e3), s3) ->
        let c3 := CallUnmaskBlockCryptKey sh key in
        (e3 <> None ->
           Ready ctx md block w
             = (failed e3,
                {| mock := s3; calls := calls w ++ [c1; c2; c3] |}))
        /\
        (e3 = None -> forall ps eb e4 s4,
           Crypto_EncryptBlock crypto block bk s3 = ((ps, eb, e4), s4) ->
           let c4 := CallEncryptBlock block bk in
           (e4 <> None ->
              Ready ctx md block w
                = (failed e4,
                   {| mock := s4; calls := calls w ++ [c1; c2; c3; c4] |}))
           /\
           (e4 = None -> forall bf e5 s5,
              Codec_Encode codec eb s4 = ((bf, e5), s5) ->
              e5 <> None ->
              Ready ctx md block w
                = (failed e5,
                   {| mock := s5;
                      calls := calls w ++
                        [c1; c2; c3; c4; CallEncode eb] |}))))).
Proof.
  intros E1 failed c1 c2. unfold Ready, Ready_body. unfold_calls.
  rewrite E1. cbn.
  split.
  { destruct e1; [reflexivity|congruence]. }
  intros -> sh e2 s2 E2. cbn. rewrite E2. cbn.
  split.
  { destruct e2; [intros _; rewrite <- !app_assoc; reflexivity|congruence]. }
  intros -> bk e3 s3 E3. cbn. rewrite E3. cbn.
  split.
  { destruct e3; [intros _; rewrite <- !app_assoc; reflexivity|congruence]. }
  intros -> ps eb e4 s4 E4. cbn. rewrite E4. cbn.
  split.
  { destruct e4; [intros _; rewrite <- !app_assoc; reflexivity|congruence]. }
  intros -> bf e5 s5 E5 Hfail. cbn. rewrite E5. cbn.
  destruct e5; [rewrite <- !app_assoc; reflexivity|congruence].
Qed.

(** X4. [Get] undoes [Ready]. Suppose the key manager hands out the same
    folder key for decryption as for encryption (whatever either call does
    to its own state), unmasking depends on its arguments only, the codec decodes what it encoded and the crypto
    decrypts what it encrypted. If [Ready] succeeded on a block and the
    block server later returns the buffer and server half [Ready] produced,
    then [Get] succeeds and the output block is the block that was made
    ready. *)
Theorem Get_returns_readied_block ctx md block (blockPtr : Ptr) out w r w1 w2 :
  (forall s s' p,
     fst (KeyManager_GetTLFCryptKeyForBlockDecryption keyManager ctx md p s')
     = fst (KeyManager_GetTLFCryptKeyForEncryption keyManager ctx md s)) ->
  (forall sh k s s',
     fst (Crypto_UnmaskBlockCryptKey crypto sh k s')
     = fst (Crypto_UnmaskBlockCryptKey crypto sh k s)) ->
  (forall eb bf s s',
     fst (Codec_Encode codec eb s) = (bf, None) ->
     fst (Codec_Decode codec bf s') = (eb, None)) ->
  (forall blk k ps eb o s s',
     fst (Crypto_EncryptBlock crypto blk k s) = (ps, eb, None) ->
     fst (Crypto_DecryptBlock crypto eb k o s') = (blk, None)) ->
  Ready ctx md block w = (r, w1) ->
  err r = None ->
  fst (BlockServer_Get bserv ctx (ID blockPtr) blockPtr (mock w2))
    = (buf (readyBlockData r), serverHalf (readyBlockData r), None) ->
  fst (Get ctx md blockPtr out w2) = (block, None).
Proof.
  intros Hkey Hunmask Hcodec Hcrypt Hready Hok Hstored.
  revert Hready Hok. unfold Ready, Ready_body. unfold_calls.
  destruct (KeyManager_GetTLFCryptKeyForEncryption _ _ _ _)
    as [[key e1] s1] eqn:E1.
  destruct e1; cbn; [intros [= <- <-]; discriminate|].
  destruct (Crypto_MakeRandomBlockCryptKeyServerHalf _ _)
    as [[sh e2] s2] eqn:E2.
  destruct e2; cbn; [intros [= <- <-]; discriminate|].
  destruct (Crypto_UnmaskBlockCryptKey _ _ _ _) as [[bk e3] s3] eqn:E3.
  destruct e3; cbn; [intros [= <- <-]; discriminate|].
  destruct (Crypto_EncryptBlock _ _ _ _) as [[[ps eb] e4] s4] eqn:E4.
  destruct e4; cbn; [intros [= <- <-]; discriminate|].
  destruct (Codec_Encode _ _ _) as [[bf e5] s5] eqn:E5.
  destruct e5; cbn; [intros [= <- <-]; discriminate|].
  destruct (GetEncodedSize _ <? ps); cbn; [intros [= <- <-]; discriminate|].
  destruct (Crypto_MakePermanentBlockID _ _ _) as [[i e6] s6] eqn:E6. cbn.
  intros [= <- <-]. rewrite Ready_deferred_err. cbn. intros ->.
  rewrite Ready_deferred_ok in Hstored by reflexivity. cbn in Hstored.
  unfold Get. unfold_calls.
  destruct (BlockServer_Get _ _ _ _ _) as [[[bf' sh'] e1'] t1] eqn:G1.
  cbn in Hstored. injection Hstored as -> -> ->. cbn.
  destruct (KeyManager_GetTLFCryptKeyForBlockDecryption keyManager ctx md
              blockPtr t1) as [[key' e2'] t2] eqn:G2.
  pose proof (Hkey (mock w) t1 blockPtr) as Hk. rewrite G2, E1 in Hk.
  cbn in Hk. injection Hk as -> ->. cbn.
  destruct (Crypto_UnmaskBlockCryptKey crypto sh key t2)
    as [[bk' e3'] t3] eqn:G3.
  pose proof (Hunmask sh key s2 t2) as Hu. rewrite G3, E3 in Hu. cbn in Hu.
  injection Hu as -> ->. cbn.
  destruct (Codec_Decode codec bf t3) as [[eb' e4'] t4] eqn:G4.
  pose proof (Hcodec eb bf s4 t3) as Hc. rewrite E5, G4 in Hc. cbn in Hc.
  specialize (Hc eq_refl). injection Hc as -> ->. cbn.
  destruct (Crypto_DecryptBlock crypto eb bk out t4) as [[o e5'] t5] eqn:G5.
  pose proof (Hcrypt block bk ps eb out s3 t4) as Hd.
  rewrite E4, G5 in Hd. cbn in Hd. specialize (Hd eq_refl).
  cbn. exact Hd.
Qed.

End Methods.

End WithCollaborators.

(** *** An in-memory configuration

    Small stand-ins for the collaborators, in the manner of the package's
    local test configuration: keys and server halves are numbers, the block
    key is their exclusive or, a block is encrypted byte by byte, the codec
    frames the ciphertext with its length, and the permanent ID numbers the
    encoded bytes. *)

Record MemState : Type := mkMemState {
  seed : N;
  blocks : list (N * (list byte * N));
  refs : list (N * N)
}.

#[export] Instance N_zero : Zero N := 0%N.

Definition xorByte (k : N) (x : byte) : byte :=
  default x00 (Byte.of_N (N.lxor (Byte.to_N x) (k mod 256))).

Fixpoint lookupBlock (id : N) (l : list (N * (list byte * N)))
    : option (list byte * N) :=
  match l with
  | [] => None
  | (k, v) :: l' => if N.eqb k id then Some v else lookupBlock id l'
  end.

Definition memBlockServer : @BlockServer unit Z N N N MemState := {|
  BlockServer_Get := fun _ id _ s =>
    match lookupBlock id (blocks s) with
    | Some (bf, sh) => ((bf, sh, None), s)
    | None => (([], 0%N, Some (ErrOther "block not found")), s)
    end;
  BlockServer_Put := fun _ id _ context bf sh s =>
    (None, {| seed := seed s;
              blocks := (id, (bf, sh)) :: blocks s;
              refs := (id, RefNonce context) :: refs s |});
  BlockServer_AddBlockReference := fun _ id _ context s =>
    (None, {| seed := seed s;
              blocks := blocks s;
              refs := (id, RefNonce context) :: refs s |});
  BlockServer_RemoveBlockReference := fun _ id _ context s =>
    (None, {| seed := seed s;
              blocks := blocks s;
              refs := filter (fun r => negb (N.eqb r.1 id && N.eqb r.2 (RefNonce context)))
                        (refs s) |})
|}.

Definition memKeyManager : @KeyManager unit Z N N N MemState := {|
  KeyManager_GetTLFCryptKeyForEncryption := fun _ md s =>
    ((Z.to_N md + 41, None), s)%N;
  KeyManager_GetTLFCryptKeyForBlockDecryption := fun _ md _ s =>
    ((Z.to_N md + 41, None), s)%N
|}.

Definition memCrypto : @Crypto N (list byte) N N N (list byte) MemState := {|
  Crypto_MakeRandomBlockCryptKeyServerHalf := fun s =>
    ((seed s, None),
     {| seed := (seed s * 75 + 74) mod 65537; blocks := blocks s; refs := refs s |})%N;
  Crypto_UnmaskBlockCryptKey := fun sh key s => ((N.lxor sh key, None), s);
  Crypto_EncryptBlock := fun block key s =>
    ((Z.of_nat (length block), map (xorByte key) block, None), s);
  Crypto_DecryptBlock := fun eb key _ s => ((map (xorByte key) eb, None), s);
  Crypto_MakePermanentBlockID := fun bf s =>
    ((fold_right (fun x acc => (acc * 257 + Byte.to_N x + 1)%N) 0%N bf, None), s)
|}.

Definition memCodec : @Codec (list byte) MemState := {|
  Codec_Encode := fun eb s =>
    ((default x00 (Byte.of_N (N.of_nat (length eb) mod 256)) :: eb, None), s);
  Codec_Decode := fun bf s =>
    match bf with
    | [] => (([], Some (ErrOther "empty buffer")), s)
    | _ :: eb => ((eb, None), s)
    end
|}.

(** A codec whose encoder drops the payload, as the mocked encoder of the
    integrity test does. *)
Definition shortCodec : @Codec (list byte) MemState := {|
  Codec_Encode := fun _ s => (([x00], None), s);
  Codec_Decode := Codec_Decode memCodec
|}.

Definition memOps : @BlockOpsStandard unit Z Z N N (list byte) N N N (list byte) MemState := {|
  config := {| config_BlockServer := memBlockServer;
               config_KeyManager := memKeyManager;
               config_Crypto := memCrypto;
               config_Codec := memCodec |}
|}.

Definition shortOps : @BlockOpsStandard unit Z Z N N (list byte) N N N (list byte) MemState := {|
  config := {| config_BlockServer := memBlockServer;
               config_KeyManager := memKeyManager;
               config_Crypto := memCrypto;
               config_Codec := shortCodec |}
|}.

Definition memWorld : @World unit Z Z N N (list byte) N N N (list byte) MemState :=
  {| mock := {| seed := 7; blocks := []; refs := [] |}; calls := [] |}.

Definition someBlock : list byte := [x01; x02; x03; x04; x05].

Definition someID : N := 46151375359973%N.

Definition somePtr : BlockPointer N N := mkBlockPointer someID 0%N.

Definition secondRef : BlockPointer N N := mkBlockPointer someID 9%N.

Definition someData : ReadyBlockData :=
  {| buf := [x05; x2c; x2f; x2e; x29; x28]; serverHalf := 7%N |}.

Definition readyCalls : list (@Call unit Z Z N N (list byte) N N N (list byte)) :=
  [CallGetTLFCryptKeyForEncryption tt 1;
   CallMakeRandomBlockCryptKeyServerHalf;
   CallUnmaskBlockCryptKey 7%N 42%N;
   CallEncryptBlock someBlock 45%N;
   CallEncode [x2c; x2f; x2e; x29; x28]].

(** The world after [someBlock] was made ready and put. *)
Definition storedWorld : @World unit Z Z N N (list byte) N N N (list byte) MemState :=
  {| mock := {| seed := 599;
                blocks := [(someID, (buf someData, 7%N))];
                refs := [(someID, 0%N)] |};
     calls := [] |}.

(** Before the deferred function runs, the results of a failed [Ready] are
    not all zero: the plain size and the data are already assigned. *)
Example Ready_body_keeps_partial_results :
  (Ready_body shortOps tt 1 someBlock memWorld).1 =
    {| id := 0%N; plainSize := 5;
       readyBlockData := {| buf := [x00]; serverHalf := 7%N |};
       err := Some (TooLowByteCountError 5 1) |}.
Proof. reflexivity. Qed.

Lemma Ready_integrity_check_witness :
  (Ready shortOps tt 1 someBlock memWorld =
     ({| id := 0%N; plainSize := 0;
         readyBlockData := {| buf := []; serverHalf := 0%N |};
         err := Some (TooLowByteCountError 5 1) |},
      {| mock := {| seed := 599; blocks := []; refs := [] |};
         calls := readyCalls |})
   /\ forallb (fun c => negb (isStoreCall c)) readyCalls = true)
  /\ err (Ready memOps tt 1 someBlock memWorld).1 = None.
Proof.
  split.
  - refine (proj1 (Ready_integrity_check shortOps tt 1 someBlock memWorld
                     _ _ _ _ _ _ _ _ _ _ _
                     eq_refl eq_refl eq_refl eq_refl eq_refl) _).
    reflexivity.
  - refine (proj2 (proj2 (Ready_integrity_check memOps tt 1 someBlock memWorld
                     _ _ _ _ _ _ _ _ _ _ _
                     eq_refl eq_refl eq_refl eq_refl eq_refl) _ _ _ _ eq_refl)).
    cbn. lia.
Defined.

Lemma Ready_error_zero_outputs_witness :
  id (Ready shortOps tt 1 someBlock memWorld).1 = 0%N
  /\ plainSize (Ready shortOps tt 1 someBlock memWorld).1 = 0
  /\ readyBlockData (Ready shortOps tt 1 someBlock memWorld).1
     = {| buf := []; serverHalf := 0%N |}.
Proof.
  apply (Ready_error_zero_outputs shortOps tt 1 someBlock memWorld).
  discriminate.
Defined.

Lemma Put_store_call_witness :
  Put (fun md : Z => md) 0%N memOps tt 1 somePtr someData memWorld =
    (None,
     {| mock := {| seed := 7;
                   blocks := [(someID, (buf someData, 7%N))];
                   refs := [(someID, 0%N)] |};
        calls := [CallBlockServerPut tt someID 1 somePtr (buf someData) 7%N] |})
  /\
  Put (fun md : Z => md) 0%N memOps tt 1 secondRef someData storedWorld =
    (None,
     {| mock := {| seed := 599;
                   blocks := [(someID, (buf someData, 7%N))];
                   refs := [(someID, 9%N); (someID, 0%N)] |};
        calls := [CallAddBlockReference tt someID 1 secondRef] |}).
Proof.
  split.
  - exact (proj1 (Put_store_call (fun md : Z => md) 0%N memOps tt 1 somePtr
                    someData memWorld) eq_refl).
  - refine (proj2 (Put_store_call (fun md : Z => md) 0%N memOps tt 1 secondRef
                     someData storedWorld) _).
    discriminate.
Defined.

Lemma Ready_success_steps_witness :
  exists key s1 sh s2 bk s3 eb s4 s5,
    KeyManager_GetTLFCryptKeyForEncryption memKeyManager tt 1 (mock memWorld)
      = ((key, None), s1)
    /\ Crypto_MakeRandomBlockCryptKeyServerHalf memCrypto s1 = ((sh, None), s2)
    /\ Crypto_UnmaskBlockCryptKey memCrypto sh key s2 = ((bk, None), s3)
    /\ Crypto_EncryptBlock memCrypto someBlock bk s3 = ((5, eb, None), s4)
    /\ Codec_Encode memCodec eb s4 = ((buf someData, None), s5)
    /\ 7%N = sh
    /\ 5 <= GetEncodedSize someData
    /\ Crypto_MakePermanentBlockID memCrypto (buf someData) s5
         = ((someID, None), {| seed := 599; blocks := []; refs := [] |})
    /\ readyCalls ++ [CallMakePermanentBlockID (buf someData)] =
         [] ++
         [CallGetTLFCryptKeyForEncryption tt 1;
          CallMakeRandomBlockCryptKeyServerHalf;
          CallUnmaskBlockCryptKey sh key;
          CallEncryptBlock someBlock bk;
          CallEncode eb;
          CallMakePermanentBlockID (buf someData)].
Proof.
  exact (Ready_success_steps memOps tt 1 someBlock memWorld
           {| id := someID; plainSize := 5; readyBlockData := someData;
              err := None |}
           {| mock := {| seed := 599; blocks := []; refs := [] |};
              calls := readyCalls ++ [CallMakePermanentBlockID (buf someData)] |}
           eq_refl eq_refl).
Defined.

Lemma Get_steps_and_errors_witness :
  Get memOps tt 1 somePtr [] storedWorld =
    ((someBlock, None),
     {| mock := mock storedWorld;
        calls := [CallBlockServerGet tt someID somePtr;
                  CallGetTLFCryptKeyForBlockDecryption tt 1 somePtr;
                  CallUnmaskBlockCryptKey 7%N 42%N;
                  CallDecode (buf someData);
                  CallDecryptBlock [x2c; x2f; x2e; x29; x28] 45%N] |})
  /\
  Get memOps tt 1 somePtr [] memWorld =
    (([], Some (ErrOther "block not found")),
     {| mock := mock memWorld;
        calls := [CallBlockServerGet tt someID somePtr] |}).
Proof.
  split.
  - destruct (Get_steps_and_errors memOps tt 1 somePtr [] storedWorld
                _ _ _ _ eq_refl) as [_ Hkey].
    destruct (Hkey eq_refl _ _ _ eq_refl) as [_ Hunmask].
    destruct (Hunmask eq_refl _ _ _ eq_refl) as [_ Hdecode].
    destruct (Hdecode eq_refl _ _ _ eq_refl) as [_ Hdecrypt].
    exact (Hdecrypt eq_refl _ _ _ eq_refl).
  - refine (proj1 (proj1 (Get_steps_and_errors memOps tt 1 somePtr [] memWorld
                            _ _ _ _ eq_refl) _)).
    discriminate.
Defined.

(** *** Configurations that fail, and the in-memory round trip *)

(** A key manager with no key for the folder. *)
Definition lockedKeyManager : @KeyManager unit Z N N N MemState := {|
  KeyManager_GetTLFCryptKeyForEncryption := fun _ _ s =>
    ((0%N, Some (ErrOther "no key for folder")), s);
  KeyManager_GetTLFCryptKeyForBlockDecryption := fun _ _ _ s =>
    ((0%N, Some (ErrOther "no key for folder")), s)
|}.

(** A codec whose encoder fails. *)
Definition failingCodec : @Codec (list byte) MemState := {|
  Codec_Encode := fun _ s => (([], Some (ErrOther "cannot encode")), s);
  Codec_Decode := Codec_Decode memCodec
|}.

Definition lockedOps
    : @BlockOpsStandard unit Z Z N N (list byte) N N N (list byte) MemState := {|
  config := {| config_BlockServer := memBlockServer;
               config_KeyManager := lockedKeyManager;
               config_Crypto := memCrypto;
               config_Codec := memCodec |}
|}.

Definition unencodableOps
    : @BlockOpsStandard unit Z Z N N (list byte) N N N (list byte) MemState := {|
  config := {| config_BlockServer := memBlockServer;
               config_KeyManager := memKeyManager;
               config_Crypto := memCrypto;
               config_Codec := failingCodec |}
|}.

Lemma Ready_first_failure_witness :
  Ready lockedOps tt 1 someBlock memWorld =
    ({| id := 0%N; plainSize := 0;
        readyBlockData := {| buf := []; serverHalf := 0%N |};
        err := Some (ErrOther "no key for folder") |},
     {| mock := mock memWorld;
        calls := [CallGetTLFCryptKeyForEncryption tt 1] |})
  /\
  Ready unencodableOps tt 1 someBlock memWorld =
    ({| id := 0%N; plainSize := 0;
        readyBlockData := {| buf := []; serverHalf := 0%N |};
        err := Some (ErrOther "cannot encode") |},
     {| mock := {| seed := 599; blocks := []; refs := [] |};
        calls := readyCalls |}).
Proof.
  split.
  - refine (proj1 (Ready_first_failure lockedOps tt 1 someBlock memWorld
                     _ _ _ eq_refl) _).
    discriminate.
  - destruct (Ready_first_failure unencodableOps tt 1 someBlock memWorld
                _ _ _ eq_refl) as [_ Hrand].
    destruct (Hrand eq_refl _ _ _ eq_refl) as [_ Hunmask].
    destruct (Hunmask eq_refl _ _ _ eq_refl) as [_ Hencrypt].
    destruct (Hencrypt eq_refl _ _ _ _ eq_refl) as [_ Hencode].
    refine (Hencode eq_refl _ _ _ eq_refl _).
    discriminate.
Defined.

Lemma lxor_byte_bound (a k : N) :
  (a <= 255 -> N.lxor a (k mod 256) <= 255)%N.
Proof.
  intros Ha.
  assert (Hk : (k mod 256 < 256)%N) by (apply N.mod_lt; discriminate).
  assert (Hlog : forall n, (n < 256 -> N.log2 n < 8)%N).
  { intros n Hn. destruct (N.eq_dec n 0%N) as [->|Hpos]; [reflexivity|].
    apply N.log2_lt_pow2; [lia|exact Hn]. }
  destruct (N.eq_dec (N.lxor a (k mod 256)) 0%N) as [->|Hpos]; [lia|].
  assert (N.lxor a (k mod 256) < 2 ^ 8)%N; [|change (2 ^ 8)%N with 256%N in *; lia].
  apply N.log2_lt_pow2; [lia|].
  eapply N.le_lt_trans; [apply N.log2_lxor|].
  apply N.max_lub_lt; apply Hlog; lia.
Qed.

(** Encrypting twice with the same key gives the byte back. *)
Lemma xorByte_involutive (k : N) (x : byte) : xorByte k (xorByte k x) = x.
Proof.
  unfold xorByte.
  pose proof (lxor_byte_bound (Byte.to_N x) k (Byte.to_N_bounded x)) as Hb.
  destruct (Byte.of_N (N.lxor (Byte.to_N x) (k mod 256))) as [y|] eqn:Hy.
  - apply Byte.to_of_N in Hy. cbn. rewrite Hy.
    rewrite N.lxor_assoc, N.lxor_nilpotent, N.lxor_0_r, Byte.of_to_N.
    reflexivity.
  - apply Byte.of_N_None_iff in Hy. lia.
Qed.

Lemma Get_returns_readied_block_witness :
  fst (Get memOps tt 1 somePtr [] storedWorld) = (someBlock, None).
Proof.
  apply (Get_returns_readied_block memOps tt 1 someBlock somePtr []
           memWorld
           {| id := someID; plainSize := 5; readyBlockData := someData;
              err := None |}
           {| mock := {| seed := 599; blocks := []; refs := [] |};
              calls := readyCalls ++ [CallMakePermanentBlockID (buf someData)] |}
           storedWorld).
  - intros s s' p. reflexivity.
  - intros sh k s s'. reflexivity.
  - intros eb bf s s' Henc. cbn in Henc. injection Henc as <-. reflexivity.
  - intros blk k ps eb o s s' Henc. cbn in Henc. injection Henc as _ <-.
    cbn. f_equal. rewrite map_map. rewrite <- (map_id blk) at 2.
    apply map_ext. intros x. apply xorByte_involutive.
  - reflexivity.
  - reflexivity.
  - reflexivity.
Defined.

End BlockOps.

(** ** Request utilities *)

Module Util.

(** *** Go's [strings] and [encoding/base64] *)

Definition HasSuffix (s suffix : string) : bool :=
  (String.length suffix <=? String.length s)%nat
  && String.eqb
       (substring (String.length s - String.length suffix)
          (String.length suffix) s)
       suffix.

Definition TrimSuffix (s suffix : string) : string :=
  if HasSuffix s suffix
  then substring 0 (String.length s - String.length suffix) s
  else s.

(** The alphabet of [base64.URLEncoding] and its padding character. *)
Definition encodeURL : list ascii :=
  list_ascii_of_string
    "ABCDEFGHIJKLMNOPQRSTUVWXYZabcdefghijklmnopqrstuvwxyz0123456789-_".

Definition padChar : ascii := "="%char.

(** [enc.encode[val>>shift&0x3F]] *)
Definition encodeAt (val shift : N) : ascii :=
  nth (N.to_nat (N.land (N.shiftr val shift) 63)) encodeURL Ascii.zero.

(** [Encoding.Encode]: three source bytes give four characters; a last
    group of one or two bytes is padded to four. *)
Fixpoint Encode (src : list byte) : list ascii :=
  match src with
  | [] => []
  | [x0] =>
      let val := N.shiftl (Byte.to_N x0) 16 in
      [encodeAt val 18; encodeAt val 12; padChar; padChar]
  | [x0; x1] =>
      let val := N.lor (N.shiftl (Byte.to_N x0) 16)
                       (N.shiftl (Byte.to_N x1) 8) in
      [encodeAt val 18; encodeAt val 12; encodeAt val 6; padChar]
  | x0 :: x1 :: x2 :: rest =>
      let val := N.lor (N.lor (N.shiftl (Byte.to_N x0) 16)
                              (N.shiftl (Byte.to_N x1) 8))
                       (Byte.to_N x2) in
      encodeAt val 18 :: encodeAt val 12 :: encodeAt val 6 :: encodeAt val 0
        :: Encode rest
  end.

Definition EncodeToString (src : list byte) : string :=
  string_of_list_ascii (Encode src).

Example EncodeToString_foobar :
  EncodeToString [x66; x6f; x6f; x62; x61; x72] = "Zm9vYmFy"%string
  /\ EncodeToString [x66; x6f] = "Zm8="%string
  /\ EncodeToString [x66] = "Zg=="%string
  /\ EncodeToString [xfb; xff] = "-_8="%string.
Proof. repeat split; reflexivity. Qed.

Example TrimSuffix_examples :
  TrimSuffix "Zg==" "==" = "Zg"%string
  /\ TrimSuffix "Zm8=" "==" = "Zm8="%string
  /\ TrimSuffix "=" "==" = "="%string.
Proof. repeat split; reflexivity. Qed.

(** *** Facts about trimming and encoding *)

Lemma string_length_append (s t : string) :
  String.length (String.append s t) = (String.length s + String.length t)%nat.
Proof. induction s as [|c s IH]; simpl; [reflexivity|]. now f_equal. Qed.

Lemma substring_whole (s : string) : substring 0 (String.length s) s = s.
Proof. induction s as [|c s IH]; simpl; [reflexivity|]. now f_equal. Qed.

Lemma substring_append_right (s t : string) :
  substring (String.length s) (String.length t) (String.append s t) = t.
Proof. induction s as [|c s IH]; simpl; [apply substring_whole|exact IH]. Qed.

Lemma substring_append_left (s t : string) :
  substring 0 (String.length s) (String.append s t) = s.
Proof.
  induction s as [|c s IH]; simpl.
  - destruct t; reflexivity.
  - now f_equal.
Qed.

Lemma TrimSuffix_append (s suffix : string) :
  TrimSuffix (String.append s suffix) suffix = s.
Proof.
  unfold TrimSuffix, HasSuffix. rewrite string_length_append.
  replace (String.length s + String.length suffix - String.length suffix)%nat
    with (String.length s) by lia.
  rewrite substring_append_right, String.eqb_refl, substring_append_left.
  replace (String.length suffix <=? String.length s + String.length suffix)%nat
    with true by (symmetry; apply Nat.leb_le; lia).
  reflexivity.
Qed.

Lemma encodeAt_in_alphabet (val shift : N) : In (encodeAt val shift) encodeURL.
Proof.
  unfold encodeAt. apply nth_In.
  change 63%N with (N.ones 6). rewrite N.land_ones.
  assert (N.shiftr val shift mod 2 ^ 6 < 64)%N by (apply N.mod_lt; discriminate).
  change (length encodeURL) with 64%nat. lia.
Qed.

Lemma padChar_not_in_alphabet (c : ascii) : In c encodeURL -> c <> padChar.
Proof.
  intros Hin ->.
  assert (Hall : forallb (fun c => negb (Ascii.eqb c padChar)) encodeURL = true)
    by reflexivity.
  rewrite forallb_forall in Hall. specialize (Hall _ Hin).
  rewrite Ascii.eqb_refl in Hall. discriminate.
Qed.

(** Sixteen bytes encode to twenty-two alphabet characters and two
    padding characters. *)
Lemma Encode_16 (src : list byte) :
  length src = 16%nat ->
  exists body,
    length body = 22%nat
    /\ Forall (fun c => In c encodeURL) body
    /\ Encode src = body ++ [padChar; padChar].
Proof.
  intros Hlen.
  do 17 (destruct src as [|? src]; try discriminate Hlen).
  match goal with
  | |- context [Encode ?l] => exists (firstn 22 (Encode l))
  end.
  cbn [Encode firstn app length].
  split; [reflexivity|]. split; [|reflexivity].
  repeat (apply List.Forall_cons; [apply encodeAt_in_alphabet|]).
  apply List.Forall_nil.
Qed.

Lemma string_of_list_ascii_app (l1 l2 : list ascii) :
  string_of_list_ascii (l1 ++ l2)
  = String.append (string_of_list_ascii l1) (string_of_list_ascii l2).
Proof.
  induction l1 as [|c l1 IH]; [reflexivity|].
  change (String c (string_of_list_ascii (l1 ++ l2))
          = String c (String.append (string_of_list_ascii l1)
                        (string_of_list_ascii l2))).
  now rewrite IH.
Qed.

(** *** MakeRandomRequestID *)

Section RequestID.

(** [cryptoRandRead] is a package variable declared elsewhere: it fills the
    buffer it is given from the system's random source, or fails. The
    buffer's content after the call is returned with the error. *)
Variable RandState : Type.
Variable cryptoRandRead :
  list byte -> RandState -> (list byte * goerror) * RandState.

Definition MakeRandomRequestID (s : RandState)
    : (string * goerror) * RandState :=
  let buf := repeat x00 (128 / 8)%nat in
  let '((buf, err), s) := cryptoRandRead buf s in
  if isErr err then ((EmptyString, err), s) else
  (* TODO: go1.5 has RawURLEncoding which leaves off the padding entirely *)
  ((TrimSuffix (EncodeToString buf) "==", None), s).

(** [cryptoRandRead] writes into the slice it is given; the slice keeps
    its length. *)
Hypothesis cryptoRandRead_in_place :
  forall buf s, length (cryptoRandRead buf s).1.1 = length buf.

(** C10. On success [MakeRandomRequestID] returns the URL base64 encoding
    of the 16 random bytes without its trailing "==": 22 characters, all of
    the URL-safe alphabet and none of them '='. When the random source fails
    it returns the empty string and that error. *)
Theorem MakeRandomRequestID_format (s : RandState) :
  let read := cryptoRandRead (repeat x00 16) s in
  let out := MakeRandomRequestID s in
  out.2 = read.2
  /\ match read.1.2 with
     | Some e => out.1 = (EmptyString, Some e)
     | None =>
         length read.1.1 = 16%nat
         /\ out.1.2 = None
         /\ EncodeToString read.1.1 = String.append out.1.1 "=="
         /\ String.length out.1.1 = 22%nat
         /\ Forall (fun c => In c encodeURL /\ c <> "="%char)
              (list_ascii_of_string out.1.1)
     end.
Proof.
  intros read out. subst out. unfold MakeRandomRequestID.
  change (128 / 8)%nat with 16%nat. fold read.
  assert (Hlen : length read.1.1 = 16%nat).
  { unfold read. rewrite cryptoRandRead_in_place. reflexivity. }
  destruct read as [[buf err] s']. cbn in Hlen |- *.
  destruct err as [e|]; cbn; [split; reflexivity|].
  split; [reflexivity|].
  destruct (Encode_16 buf Hlen) as (body & Hbody & Halpha & Henc).
  assert (Hstr : EncodeToString buf
                 = String.append (string_of_list_ascii body) "==").
  { unfold EncodeToString. rewrite Henc, string_of_list_ascii_app.
    reflexivity. }
  rewrite Hstr, TrimSuffix_append.
  repeat split; auto.
  - rewrite <- Hbody. clear. induction body as [|c body IH]; simpl; congruence.
  - rewrite list_ascii_of_string_of_list_ascii.
    eapply List.Forall_impl; [|exact Halpha].
    intros c Hc. split; [exact Hc|]. now apply padChar_not_in_alphabet.
Qed.

End RequestID.

(** A random source for the examples: it hands out consecutive byte
    values. *)
Definition counterRead (buf : list byte) (s : N)
    : (list byte * goerror) * N :=
  ((imap (fun i _ => default x00 (Byte.of_N ((s + N.of_nat i) mod 256))) buf,
    None),
   (s + N.of_nat (length buf))%N).

(** A random source that is out of entropy. *)
Definition failingRead (buf : list byte) (s : N)
    : (list byte * goerror) * N :=
  ((buf, Some (ErrOther "short read")), s).

Example MakeRandomRequestID_counter :
  MakeRandomRequestID N counterRead 0%N
  = (("AAECAwQFBgcICQoLDA0ODw"%string, None), 16%N).
Proof. reflexivity. Qed.

Example MakeRandomRequestID_failing :
  MakeRandomRequestID N failingRead 0%N
  = ((EmptyString, Some (ErrOther "short read")), 0%N).
Proof. reflexivity. Qed.

Lemma MakeRandomRequestID_format_witness :
  let read := counterRead (repeat x00 16) 0%N in
  let out := MakeRandomRequestID N counterRead 0%N in
  out.2 = read.2
  /\ match read.1.2 with
     | Some e => out.1 = (EmptyString, Some e)
     | None =>
         length read.1.1 = 16%nat
         /\ out.1.2 = None
         /\ EncodeToString read.1.1 = String.append out.1.1 "=="
         /\ String.length out.1.1 = 22%nat
         /\ Forall (fun c => In c encodeURL /\ c <> "="%char)
              (list_ascii_of_string out.1.1)
     end.
Proof.
  apply (MakeRandomRequestID_format N counterRead).
  intros buf s. cbn. apply length_imap.
Defined.

(** *** runUnlessCanceled

    The function starts a goroutine that runs [fn] and sends its result on
    the channel [c] (buffered, capacity 1), and then selects between
    [ctx.Done()] and [c]. Three things happen, in an order the scheduler
    decides: the context is cancelled, [fn] returns, the caller reaches the
    select. A select with one ready case takes it; with both ready the
    runtime picks one; with none ready the caller blocks and the first case
    to become ready wakes it and is the one taken. *)

Inductive Choice : Type := ChooseDone | ChooseResult.

Inductive Event : Type :=
| Cancel (e : error)      (* ctx is cancelled; ctx.Err() is e from now on *)
| FnReturns               (* fn returns and its result is sent on c *)
| Select (pick : Choice). (* the caller reaches the select statement *)

Inductive Caller : Type :=
| BeforeSelect
| Waiting
| Returned (err : goerror).

Record State : Type := mkState {
  ctxErr : goerror;          (* ctx.Err(); Done() is closed iff it is non-nil *)
  c : option goerror;        (* the content of the channel *)
  fnCompleted : bool;
  caller : Caller
}.

Section RunUnlessCanceled.

(** [ctx.Err()] when the function is called, and the value [fn] returns
    if it returns. *)
Variable ctx : goerror.
Variable fn : goerror.

Definition start : State :=
  {| ctxErr := ctx; c := None; fnCompleted := false; caller := BeforeSelect |}.

Definition step (st : State) (ev : Event) : State :=
  match ev with
  | Cancel e =>
      match ctxErr st with
      | Some _ => st
      | None =>
          {| ctxErr := Some e; c := c st; fnCompleted := fnCompleted st;
             caller := match caller st with
                       | Waiting => Returned (Some e)   (* return ctx.Err() *)
                       | m => m
                       end |}
      end
  | FnReturns =>
      if fnCompleted st then st else
      match caller st with
      | Waiting =>                                     (* err := <-c; return err *)
          {| ctxErr := ctxErr st; c := None; fnCompleted := true;
             caller := Returned fn |}
      | m =>
          {| ctxErr := ctxErr st; c := Some fn; fnCompleted := true;
             caller := m |}
      end
  | Select pick =>
      match caller st with
      | BeforeSelect =>
          match ctxErr st, c st with
          | Some e, Some r =>
              match pick with
              | ChooseDone =>
                  {| ctxErr := ctxErr st; c := c st;
                     fnCompleted := fnCompleted st;
                     caller := Returned (Some e) |}
              | ChooseResult =>
                  {| ctxErr := ctxErr st; c := None;
                     fnCompleted := fnCompleted st; caller := Returned r |}
              end
          | Some e, None =>
              {| ctxErr := ctxErr st; c := c st; fnCompleted := fnCompleted st;
                 caller := Returned (Some e) |}
          | None, Some r =>
              {| ctxErr := ctxErr st; c := None; fnCompleted := fnCompleted st;
                 caller := Returned r |}
          | None, None =>
              {| ctxErr := ctxErr st; c := c st; fnCompleted := fnCompleted st;
                 caller := Waiting |}
          end
      | _ => st
      end
  end.

Definition exec (sched : list Event) : State := fold_left step sched start.

(** What the call has returned after the events of [sched]; [None] while
    it has not returned. *)
Definition runUnlessCanceled (sched : list Event) : option goerror :=
  match caller (exec sched) with
  | Returned err => Some err
  | _ => None
  end.

Lemma classic_select (pre : list Event) :
  (exists pick, In (Select pick) pre) \/ (forall pick, ~ In (Select pick) pre).
Proof.
  induction pre as [|ev pre [IH|IH]].
  - right. intros pick [].
  - left. destruct IH as [pick Hin]. exists pick. now right.
  - destruct ev as [e| |pick].
    + right. intros pick [Heq|Hin]; [discriminate|now apply (IH pick)].
    + right. intros pick [Heq|Hin]; [discriminate|now apply (IH pick)].
    + left. exists pick. now left.
Qed.

Lemma exec_snoc (sched : list Event) (ev : Event) :
  exec (sched ++ [ev]) = step (exec sched) ev.
Proof. unfold exec. apply fold_left_app. Qed.

Lemma exec_app (pre post : list Event) :
  exec (pre ++ post) = fold_left step post (exec pre).
Proof. unfold exec. apply fold_left_app. Qed.

(** Once the call has returned, nothing changes what it returned. *)
Lemma Returned_stable (post : list Event) (st : State) (r : goerror) :
  caller st = Returned r -> caller (fold_left step post st) = Returned r.
Proof.
  revert st. induction post as [|ev post IH]; intros st Hst; [exact Hst|].
  cbn. apply IH.
  destruct ev as [e| |pick]; cbn.
  - destruct (ctxErr st); [exact Hst|]. cbn. now rewrite Hst.
  - destruct (fnCompleted st); [exact Hst|]. rewrite Hst. reflexivity.
  - now rewrite Hst.
Qed.

(** The facts that hold after any sequence of events. *)
Definition Inv (sched : list Event) (st : State) : Prop :=
  (fnCompleted st = true -> In FnReturns sched)
  /\ (forall r, c st = Some r -> r = fn /\ fnCompleted st = true)
  /\ (forall e, ctxErr st = Some e -> ctx = Some e \/ In (Cancel e) sched)
  /\ (forall r, caller st = Returned r ->
        (r = fn /\ fnCompleted st = true)
        \/ (exists e, r = Some e /\ ctxErr st = Some e)).

Lemma Inv_exec (sched : list Event) : Inv sched (exec sched).
Proof.
  induction sched as [|ev sched IH] using rev_ind.
  - unfold Inv, exec, start. cbn. repeat split; try discriminate.
    intros e ->. now left.
  - rewrite exec_snoc. destruct IH as (Hdone & Hchan & Hctx & Hret).
    destruct (exec sched) as [ce ch done cl]. cbn in *.
    assert (Hin : forall x, In x sched -> In x (sched ++ [ev]))
      by (intros x Hx; apply in_or_app; now left).
    assert (Hev : In ev (sched ++ [ev]))
      by (apply in_or_app; right; now left).
    unfold Inv.
    destruct ev as [e| |pick]; cbn;
      repeat match goal with
             | |- context [match ?x with _ => _ end] => destruct x; cbn
             end;
      repeat split; intros; simplify_eq; naive_solver.
Qed.

(** Before the select nothing is received, and without [FnReturns] nothing
    is sent. *)
Lemma exec_before_select (pre : list Event) :
  (forall pick, ~ In (Select pick) pre) ->
  caller (exec pre) = BeforeSelect.
Proof.
  induction pre as [|ev pre IH] using rev_ind; intros Hno; [reflexivity|].
  rewrite exec_snoc.
  assert (Hpre : caller (exec pre) = BeforeSelect).
  { apply IH. intros pick Hin. apply (Hno pick), in_or_app. now left. }
  destruct ev as [e| |pick]; cbn.
  - destruct (ctxErr (exec pre)); [exact Hpre|]. cbn. now rewrite Hpre.
  - destruct (fnCompleted (exec pre)); [exact Hpre|]. now rewrite Hpre.
  - exfalso. apply (Hno pick), in_or_app. right. now left.
Qed.

Lemma exec_fn_running (pre : list Event) :
  ~ In FnReturns pre ->
  fnCompleted (exec pre) = false /\ c (exec pre) = None.
Proof.
  intros Hno. destruct (Inv_exec pre) as (Hdone & Hchan & _).
  assert (Hf : fnCompleted (exec pre) = false).
  { destruct (fnCompleted (exec pre)); [|reflexivity].
    exfalso. now apply Hno, Hdone. }
  split; [exact Hf|].
  destruct (c (exec pre)) as [r|] eqn:Hc; [|reflexivity].
  destruct (Hchan r eq_refl) as [_ Ht]. congruence.
Qed.

Lemma exec_waiting (pre : list Event) :
  ctx = None ->
  ~ In FnReturns pre ->
  (forall e, ~ In (Cancel e) pre) ->
  (exists pick, In (Select pick) pre) ->
  caller (exec pre) = Waiting /\ ctxErr (exec pre) = None.
Proof.
  intros Hctx Hfn Hcancel.
  assert (Hnone : ctxErr (exec pre) = None).
  { destruct (Inv_exec pre) as (_ & _ & Hc & _).
    destruct (ctxErr (exec pre)) as [e|] eqn:He; [|reflexivity].
    destruct (Hc e eq_refl) as [?|?]; [congruence|].
    exfalso. now apply (Hcancel e). }
  intros Hsel. split; [|exact Hnone]. clear Hnone.
  induction pre as [|ev pre IH] using rev_ind.
  - destruct Hsel as [pick []].
  - rewrite exec_snoc.
    assert (Hfn' : ~ In FnReturns pre)
      by (intros Hin; apply Hfn, in_or_app; now left).
    assert (Hcancel' : forall e, ~ In (Cancel e) pre)
      by (intros e Hin; apply (Hcancel e), in_or_app; now left).
    destruct ev as [e| |pick]; cbn.
    + exfalso. apply (Hcancel e), in_or_app. right. now left.
    + exfalso. apply Hfn, in_or_app. right. now left.
    + assert (Hnone : ctxErr (exec pre) = None).
      { destruct (Inv_exec pre) as (_ & _ & Hc & _).
        destruct (ctxErr (exec pre)) as [e|] eqn:He; [|reflexivity].
        destruct (Hc e eq_refl) as [?|?]; [congruence|].
        exfalso. now apply (Hcancel' e). }
      destruct (exec_fn_running pre Hfn') as [_ Hchan].
      destruct (caller (exec pre)) eqn:Hcl.
      * rewrite Hnone, Hchan. reflexivity.
      * exact Hcl.
      * exfalso.
        destruct (classic_select pre) as [Hs|Hs].
        -- specialize (IH Hfn' Hcancel' Hs). congruence.
        -- rewrite exec_before_select in Hcl by exact Hs. discriminate.
Qed.

(** C9, as amended. (1) [runUnlessCanceled] returns nil only when [fn] ran
    to completion and returned nil. (2) Whatever it returns is either the
    result of the completed [fn] or the error of the cancelled context.
    (3) If the context is cancelled and [fn] has not completed when the
    caller reaches the select, the call returns [ctx.Err()]. (4) If the
    caller is blocked in the select and the context is cancelled before [fn]
    completes, the call returns [ctx.Err()]. When both the cancellation and
    the completion of [fn] precede the select, either value may come back. *)
Theorem runUnlessCanceled_cancellation :
  (forall sched,
     runUnlessCanceled sched = Some None -> fn = None /\ In FnReturns sched)
  /\ (forall sched r,
        runUnlessCanceled sched = Some r ->
        (r = fn /\ In FnReturns sched)
        \/ (exists e, r = Some e /\ (ctx = Some e \/ In (Cancel e) sched)))
  /\ (forall pre pick post e,
        (forall p, ~ In (Select p) pre) ->
        ~ In FnReturns pre ->
        ctxErr (exec pre) = Some e ->
        runUnlessCanceled (pre ++ Select pick :: post) = Some (Some e))
  /\ (forall pre post e,
        ctx = None ->
        (forall e', ~ In (Cancel e') pre) ->
        ~ In FnReturns pre ->
        (exists p, In (Select p) pre) ->
        runUnlessCanceled (pre ++ Cancel e :: post) = Some (Some e)).
Proof.
  assert (Hany : forall sched r,
    runUnlessCanceled sched = Some r ->
    (r = fn /\ In FnReturns sched)
    \/ (exists e, r = Some e /\ (ctx = Some e \/ In (Cancel e) sched))).
  { intros sched r Hrun. unfold runUnlessCanceled in Hrun.
    destruct (Inv_exec sched) as (Hdone & _ & Hctx & Hret).
    destruct (caller (exec sched)) as [| |r0] eqn:Hcl; try discriminate.
    injection Hrun as ->.
    destruct (Hret r eq_refl) as [[-> Hc]|(e & -> & He)].
    - left. split; [reflexivity|]. now apply Hdone.
    - right. exists e. split; [reflexivity|]. now apply Hctx. }
  split; [|split; [exact Hany|split]].
  - intros sched Hrun.
    destruct (Hany sched None Hrun) as [[<- Hin]|(e & He & _)];
      [now split|discriminate].
  - intros pre pick post e Hsel Hfn Hctx.
    unfold runUnlessCanceled. rewrite exec_app. cbn [fold_left].
    rewrite (Returned_stable post _ (Some e)); [reflexivity|].
    destruct (exec_fn_running pre Hfn) as [_ Hchan].
    cbn. rewrite (exec_before_select pre Hsel), Hctx, Hchan. reflexivity.
  - intros pre post e Hnil Hcancel Hfn Hsel.
    unfold runUnlessCanceled. rewrite exec_app. cbn [fold_left].
    rewrite (Returned_stable post _ (Some e)); [reflexivity|].
    destruct (exec_waiting pre Hnil Hfn Hcancel Hsel) as [Hw Hc].
    cbn. rewrite Hc. cbn. rewrite Hw. reflexivity.
Qed.

(** *** Without cancellation *)

Definition isFnReturns (ev : Event) : bool :=
  match ev with FnReturns => true | _ => false end.

Definition isSelect (ev : Event) : bool :=
  match ev with Select _ => true | _ => false end.

(** The state after a schedule in which the context is never cancelled. *)
Lemma exec_not_canceled (sched : list Event) :
  ctx = None ->
  (forall e, ~ In (Cancel e) sched) ->
  exec sched =
    {| ctxErr := None;
       c := if existsb isFnReturns sched && negb (existsb isSelect sched)
            then Some fn else None;
       fnCompleted := existsb isFnReturns sched;
       caller := if existsb isSelect sched
                 then (if existsb isFnReturns sched
                       then Returned fn else Waiting)
                 else BeforeSelect |}.
Proof.
  intros Hctx. induction sched as [|ev sched IH] using rev_ind; intros Hno.
  - unfold exec, start. cbn. now rewrite Hctx.
  - rewrite exec_snoc, IH
      by (intros e Hin; apply (Hno e), in_or_app; now left).
    rewrite !existsb_app. cbn [existsb].
    destruct ev as [e| |pick].
    + exfalso. apply (Hno e), in_or_app. right. now left.
    + cbn. destruct (existsb isFnReturns sched), (existsb isSelect sched);
        reflexivity.
    + cbn. destruct (existsb isFnReturns sched), (existsb isSelect sched);
        reflexivity.
Qed.

(** X5. While the context is not cancelled, [runUnlessCanceled] behaves as
    a call of [fn]: it returns as soon as [fn] has returned and the caller
    has reached the select, in whichever order, it returns the value [fn]
    returned, and it does not return before [fn] has. *)
Theorem runUnlessCanceled_not_canceled (sched : list Event) :
  ctx = None ->
  (forall e, ~ In (Cancel e) sched) ->
  (In FnReturns sched -> (exists pick, In (Select pick) sched) ->
     runUnlessCanceled sched = Some fn)
  /\ (forall r, runUnlessCanceled sched = Some r ->
        r = fn /\ In FnReturns sched /\ exists pick, In (Select pick) sched).
Proof.
  intros Hctx Hno. unfold runUnlessCanceled.
  rewrite (exec_not_canceled sched Hctx Hno). cbn. split.
  - intros Hfn [pick Hsel].
    assert (Hf : existsb isFnReturns sched = true)
      by (apply existsb_exists; now exists FnReturns).
    assert (Hs : existsb isSelect sched = true)
      by (apply existsb_exists; now exists (Select pick)).
    now rewrite Hf, Hs.
  - intros r.
    destruct (existsb isSelect sched) eqn:Hs; [|discriminate].
    destruct (existsb isFnReturns sched) eqn:Hf; [|discriminate].
    intros [= <-]. split; [reflexivity|].
    apply existsb_exists in Hf as (ev & Hin & Hev).
    apply existsb_exists in Hs as (ev' & Hin' & Hev').
    destruct ev; try discriminate. destruct ev'; try discriminate.
    split; [exact Hin|]. now exists pick.
Qed.

End RunUnlessCanceled.

Definition canceled : error := ErrOther "context canceled".

(** The context is cancelled, then [fn] returns nil, and only then does the
    caller reach the select: both cases are ready and the runtime may take
    the channel, so the call returns nil although the context was cancelled
    before [fn] completed. *)
Lemma runUnlessCanceled_cancel_swallowed :
  ctxErr (exec None None [Cancel canceled]) = Some canceled
  /\ fnCompleted (exec None None [Cancel canceled]) = false
  /\ runUnlessCanceled None None
       [Cancel canceled; FnReturns; Select ChooseResult] = Some None
  /\ runUnlessCanceled (Some canceled) None
       [FnReturns; Select ChooseResult] = Some None.
Proof. repeat split; reflexivity. Qed.

Lemma runUnlessCanceled_cancellation_witness :
  ((None : goerror) = None /\ In FnReturns [Select ChooseDone; FnReturns])
  /\ ((Some canceled = None /\ In FnReturns [Cancel canceled; Select ChooseDone])
      \/ (exists e, Some canceled = Some e
            /\ ((None : goerror) = Some e
                \/ In (Cancel e) [Cancel canceled; Select ChooseDone])))
  /\ runUnlessCanceled None None
       ([Cancel canceled] ++ Select ChooseResult :: [FnReturns])
     = Some (Some canceled)
  /\ runUnlessCanceled None None
       ([Select ChooseResult] ++ Cancel canceled :: [FnReturns])
     = Some (Some canceled).
Proof.
  destruct (runUnlessCanceled_cancellation None None)
    as (Hnil & Hany & Hsel & Hwait).
  split; [|split; [|split]].
  - apply (Hnil [Select ChooseDone; FnReturns]). reflexivity.
  - apply (Hany [Cancel canceled; Select ChooseDone] (Some canceled)).
    reflexivity.
  - apply Hsel.
    + intros p [Heq|[]]. discriminate Heq.
    + intros [Heq|[]]. discriminate Heq.
    + reflexivity.
  - apply Hwait.
    + reflexivity.
    + intros e' [Heq|[]]. discriminate Heq.
    + intros [Heq|[]]. discriminate Heq.
    + exists ChooseResult. now left.
Defined.

Lemma runUnlessCanceled_not_canceled_witness :
  runUnlessCanceled None (Some canceled) [FnReturns; Select ChooseDone]
  = Some (Some canceled)
  /\ runUnlessCanceled None None [Select ChooseDone; FnReturns] = Some None.
Proof.
  split.
  - apply (runUnlessCanceled_not_canceled None (Some canceled)
             [FnReturns; Select ChooseDone]).
    + reflexivity.
    + intros e [Heq|[Heq|[]]]; discriminate.
    + now left.
    + exists ChooseDone. right. now left.
  - apply (runUnlessCanceled_not_canceled None None
             [Select ChooseDone; FnReturns]).
    + reflexivity.
    + intros e [Heq|[Heq|[]]]; discriminate.
    + right. now left.
    + exists ChooseDone. now left.
Defined.

(** *** The request ID keeps every random bit *)

Lemma encodeURL_NoDup : NoDup encodeURL.
Proof. apply (bool_decide_unpack _). vm_compute. exact I. Qed.

Lemma encodeAt_inj (v s v' s' : N) :
  encodeAt v s = encodeAt v' s' ->
  N.land (N.shiftr v s) 63 = N.land (N.shiftr v' s') 63.
Proof.
  unfold encodeAt. intros Heq.
  assert (Hlt : forall x, (N.to_nat (N.land x 63) < length encodeURL)%nat).
  { intros x. change 63%N with (N.ones 6). rewrite N.land_ones.
    assert (x mod 2 ^ 6 < 64)%N by (apply N.mod_lt; discriminate).
    change (length encodeURL) with 64%nat. lia. }
  apply N2Nat.inj.
  apply (proj1 (List.NoDup_nth encodeURL Ascii.zero)
           (proj1 (NoDup_ListNoDup encodeURL) encodeURL_NoDup));
    [apply Hlt|apply Hlt|exact Heq].
Qed.

Lemma field_bit (v k j : N) :
  (j < 6)%N ->
  N.testbit (N.land (N.shiftr v k) 63) j = N.testbit v (j + k).
Proof.
  intros Hj. rewrite N.land_spec, N.shiftr_spec by lia.
  change 63%N with (N.ones 6). rewrite N.ones_spec_low by lia.
  apply andb_true_r.
Qed.

Lemma bits_from_field (v v' k m : N) :
  N.land (N.shiftr v k) 63 = N.land (N.shiftr v' k) 63 ->
  (k <= m < k + 6)%N ->
  N.testbit v m = N.testbit v' m.
Proof.
  intros Hf Hm. replace m with (m - k + k)%N by lia.
  rewrite <- !field_bit by lia. now rewrite Hf.
Qed.

Lemma small_bit (b n : N) : (b <= 255)%N -> (8 <= n)%N -> N.testbit b n = false.
Proof.
  intros Hb Hn. destruct (N.eq_dec b 0%N) as [->|Hpos]; [apply N.bits_0|].
  apply N.bits_above_log2.
  assert (N.log2 b < 8)%N; [|lia].
  apply N.log2_lt_pow2; [lia|]. change (2 ^ 8)%N with 256%N. lia.
Qed.

Definition val3 (a b c : N) : N :=
  N.lor (N.lor (N.shiftl a 16) (N.shiftl b 8)) c.

Lemma val3_bit (a b c m : N) :
  (a <= 255)%N -> (b <= 255)%N -> (c <= 255)%N ->
  N.testbit (val3 a b c) m =
    if (m <? 8)%N then N.testbit c m
    else if (m <? 16)%N then N.testbit b (m - 8)
    else N.testbit a (m - 16).
Proof.
  intros Ha Hb Hc. unfold val3. rewrite !N.lor_spec.
  destruct (N.ltb_spec m 8); [|destruct (N.ltb_spec m 16)].
  - rewrite !N.shiftl_spec_low by lia. reflexivity.
  - rewrite N.shiftl_spec_low, N.shiftl_spec_high' by lia.
    rewrite (small_bit c m) by lia. cbn. apply orb_false_r.
  - rewrite !N.shiftl_spec_high' by lia.
    rewrite (small_bit c m), (small_bit b (m - 8)) by lia.
    now rewrite !orb_false_r.
Qed.

Lemma byte_eq_from_bits (a a' : N) :
  (a <= 255)%N -> (a' <= 255)%N ->
  (forall n, (n < 8)%N -> N.testbit a n = N.testbit a' n) ->
  a = a'.
Proof.
  intros Ha Ha' Hbits. apply N.bits_inj. intros n.
  destruct (N.lt_ge_cases n 8); [now apply Hbits|].
  now rewrite !small_bit.
Qed.

Lemma to_N_inj (x y : byte) : Byte.to_N x = Byte.to_N y -> x = y.
Proof.
  intros Heq. pose proof (Byte.of_to_N x) as Hx.
  rewrite Heq, Byte.of_to_N in Hx. congruence.
Qed.

Section Fields.

Variables a b c a' b' c' : N.
Hypothesis Ha : (a <= 255)%N.
Hypothesis Hb : (b <= 255)%N.
Hypothesis Hc : (c <= 255)%N.
Hypothesis Ha' : (a' <= 255)%N.
Hypothesis Hb' : (b' <= 255)%N.
Hypothesis Hc' : (c' <= 255)%N.

Let v := val3 a b c.
Let v' := val3 a' b' c'.

Hypothesis H18 : N.land (N.shiftr v 18) 63 = N.land (N.shiftr v' 18) 63.
Hypothesis H12 : N.land (N.shiftr v 12) 63 = N.land (N.shiftr v' 12) 63.

Lemma val3_high : a = a'.
Proof.
  apply byte_eq_from_bits; [exact Ha|exact Ha'|]. intros n Hn.
  assert (Hbit : N.testbit v (n + 16) = N.testbit v' (n + 16)).
  { destruct (N.lt_ge_cases (n + 16) 18).
    - apply (bits_from_field v v' 12); [exact H12|lia].
    - apply (bits_from_field v v' 18); [exact H18|lia]. }
  unfold v, v' in Hbit. rewrite !val3_bit in Hbit by assumption.
  replace (n + 16 <? 8)%N with false in Hbit by (symmetry; apply N.ltb_ge; lia).
  replace (n + 16 <? 16)%N with false in Hbit by (symmetry; apply N.ltb_ge; lia).
  now replace (n + 16 - 16)%N with n in Hbit by lia.
Qed.

Hypothesis H6 : N.land (N.shiftr v 6) 63 = N.land (N.shiftr v' 6) 63.

Lemma val3_middle : b = b'.
Proof.
  apply byte_eq_from_bits; [exact Hb|exact Hb'|]. intros n Hn.
  assert (Hbit : N.testbit v (n + 8) = N.testbit v' (n + 8)).
  { destruct (N.lt_ge_cases (n + 8) 12).
    - apply (bits_from_field v v' 6); [exact H6|lia].
    - apply (bits_from_field v v' 12); [exact H12|lia]. }
  unfold v, v' in Hbit. rewrite !val3_bit in Hbit by assumption.
  replace (n + 8 <? 8)%N with false in Hbit by (symmetry; apply N.ltb_ge; lia).
  replace (n + 8 <? 16)%N with true in Hbit by (symmetry; apply N.ltb_lt; lia).
  now replace (n + 8 - 8)%N with n in Hbit by lia.
Qed.

Hypothesis H0 : N.land (N.shiftr v 0) 63 = N.land (N.shiftr v' 0) 63.

Lemma val3_low : c = c'.
Proof.
  apply byte_eq_from_bits; [exact Hc|exact Hc'|]. intros n Hn.
  assert (Hbit : N.testbit v n = N.testbit v' n).
  { destruct (N.lt_ge_cases n 6).
    - apply (bits_from_field v v' 0); [exact H0|lia].
    - apply (bits_from_field v v' 6); [exact H6|lia]. }
  unfold v, v' in Hbit. rewrite !val3_bit in Hbit by assumption.
  now replace (n <? 8)%N with true in Hbit by (symmetry; apply N.ltb_lt; lia).
Qed.

End Fields.

Lemma Encode_three (x0 x1 x2 : byte) (l : list byte) :
  Encode (x0 :: x1 :: x2 :: l) =
    let val := val3 (Byte.to_N x0) (Byte.to_N x1) (Byte.to_N x2) in
    encodeAt val 18 :: encodeAt val 12 :: encodeAt val 6 :: encodeAt val 0
      :: Encode l.
Proof. reflexivity. Qed.

Lemma Encode_two (x0 x1 : byte) :
  Encode [x0; x1] =
    let val := val3 (Byte.to_N x0) (Byte.to_N x1) 0 in
    [encodeAt val 18; encodeAt val 12; encodeAt val 6; padChar].
Proof. unfold val3. rewrite N.lor_0_r. reflexivity. Qed.

Lemma Encode_one (x0 : byte) :
  Encode [x0] =
    let val := val3 (Byte.to_N x0) 0 0 in
    [encodeAt val 18; encodeAt val 12; padChar; padChar].
Proof. unfold val3. rewrite N.shiftl_0_l, !N.lor_0_r. reflexivity. Qed.

Lemma list_ind3 {A : Type} (P : list A -> Prop) :
  P [] -> (forall x, P [x]) -> (forall x y, P [x; y]) ->
  (forall x y z l, P l -> P (x :: y :: z :: l)) ->
  forall l, P l.
Proof.
  intros H0 H1 H2 H3.
  fix IH 1. intros [|x [|y [|z l]]]; [exact H0|apply H1|apply H2|].
  apply H3, IH.
Qed.

Ltac pad_absurd :=
  match goal with
  | H : encodeAt ?v ?s = padChar |- _ =>
      exfalso; exact (padChar_not_in_alphabet _ (encodeAt_in_alphabet v s) H)
  | H : padChar = encodeAt ?v ?s |- _ =>
      exfalso;
      exact (padChar_not_in_alphabet _ (encodeAt_in_alphabet v s) (eq_sym H))
  end.

(** The encoding loses nothing: different byte strings have different
    encodings. *)
Lemma Encode_inj (l1 l2 : list byte) : Encode l1 = Encode l2 -> l1 = l2.
Proof.
  revert l2. induction l1 as [|x|x y|x y z l1 IH] using list_ind3;
    intros [|x' [|y' [|z' l2]]];
    rewrite ?Encode_one, ?Encode_two, ?Encode_three; cbn zeta;
    intros Heq; try reflexivity; try discriminate Heq;
    injection Heq; clear Heq; intros; try pad_absurd;
    repeat match goal with
           | H : encodeAt _ _ = encodeAt _ _ |- _ => apply encodeAt_inj in H
           end;
    pose proof (Byte.to_N_bounded x); pose proof (Byte.to_N_bounded x');
    assert (0 <= 255)%N by lia.
  - f_equal. apply to_N_inj.
    apply (val3_high _ 0%N 0%N _ 0%N 0%N); assumption.
  - pose proof (Byte.to_N_bounded y). pose proof (Byte.to_N_bounded y').
    f_equal; [|f_equal]; apply to_N_inj.
    + apply (val3_high _ (Byte.to_N y) 0%N _ (Byte.to_N y') 0%N); assumption.
    + apply (val3_middle (Byte.to_N x) _ 0%N (Byte.to_N x') _ 0%N); assumption.
  - pose proof (Byte.to_N_bounded y). pose proof (Byte.to_N_bounded y').
    pose proof (Byte.to_N_bounded z). pose proof (Byte.to_N_bounded z').
    f_equal; [|f_equal; [|f_equal]]; try apply to_N_inj.
    + apply (val3_high _ (Byte.to_N y) (Byte.to_N z)
               _ (Byte.to_N y') (Byte.to_N z')); assumption.
    + apply (val3_middle (Byte.to_N x) _ (Byte.to_N z)
               (Byte.to_N x') _ (Byte.to_N z')); assumption.
    + apply (val3_low (Byte.to_N x) (Byte.to_N y) _
               (Byte.to_N x') (Byte.to_N y') _); assumption.
    + now apply IH.
Qed.

Lemma trimmed_encoding (buf : list byte) :
  length buf = 16%nat ->
  EncodeToString buf
  = String.append (TrimSuffix (EncodeToString buf) "==") "==".
Proof.
  intros Hlen. destruct (Encode_16 buf Hlen) as (body & _ & _ & Henc).
  unfold EncodeToString. rewrite Henc, string_of_list_ascii_app.
  change (string_of_list_ascii [padChar; padChar]) with "=="%string.
  now rewrite TrimSuffix_append.
Qed.

Section RequestIDUnique.

Variable RandState : Type.
Variable cryptoRandRead :
  list byte -> RandState -> (list byte * goerror) * RandState.

Hypothesis cryptoRandRead_in_place :
  forall buf s, length (cryptoRandRead buf s).1.1 = length buf.

(** X6. The request ID loses none of the 128 random bits: two successful
    calls that return the same ID were given the same 16 bytes by the
    random source. *)
Theorem MakeRandomRequestID_injective (s1 s2 : RandState) (id : string) :
  (MakeRandomRequestID RandState cryptoRandRead s1).1 = (id, None) ->
  (MakeRandomRequestID RandState cryptoRandRead s2).1 = (id, None) ->
  (cryptoRandRead (repeat x00 16) s1).1.1
  = (cryptoRandRead (repeat x00 16) s2).1.1.
Proof.
  unfold MakeRandomRequestID. change (128 / 8)%nat with 16%nat.
  pose proof (cryptoRandRead_in_place (repeat x00 16) s1) as Hlen1.
  pose proof (cryptoRandRead_in_place (repeat x00 16) s2) as Hlen2.
  destruct (cryptoRandRead (repeat x00 16) s1) as [[buf1 e1] t1].
  destruct (cryptoRandRead (repeat x00 16) s2) as [[buf2 e2] t2].
  cbn in Hlen1, Hlen2 |- *.
  destruct e1; [discriminate|]. destruct e2; [discriminate|].
  cbn. intros [= H1] [= H2].
  apply Encode_inj.
  rewrite <- (list_ascii_of_string_of_list_ascii (Encode buf1)).
  rewrite <- (list_ascii_of_string_of_list_ascii (Encode buf2)).
  f_equal. change (EncodeToString buf1 = EncodeToString buf2).
  rewrite (trimmed_encoding buf1 Hlen1), (trimmed_encoding buf2 Hlen2).
  now rewrite H1, H2.
Qed.

End RequestIDUnique.

Lemma MakeRandomRequestID_injective_witness :
  (counterRead (repeat x00 16) 0%N).1.1 = (counterRead (repeat x00 16) 256%N).1.1.
Proof.
  apply (MakeRandomRequestID_injective N counterRead) with
    (id := "AAECAwQFBgcICQoLDA0ODw"%string).
  - intros buf s. cbn. apply length_imap.
  - reflexivity.
  - reflexivity.
Defined.

(** *** Log tags *)

(** What [ctx.Value(key)] holds when it is not nil: a [fmt.Stringer] (with
    what its [String()] returns), a [string], or a value of another type. *)
Inductive Value : Type :=
| VStringer (s : string)
| VString (s : string)
| VOther.

Section LogTags.

(** The keys of context values and of [logger.CtxLogTags], compared with
    [==]; a non-nil [context.Context] with its [Value] method; and
    [logger.LogTagsFromContext], declared in the logger package, which
    returns the tags and whether there are any. *)
Context `{Countable Key}.
Variable Context : Type.
Variable ctxValue : Context -> Key -> option Value.
Variable LogTagsFromContext : Context -> option (gmap Key string).

(** The order in which [range] visits a map is not specified: it is some
    enumeration of the map's entries. *)
Variable range : gmap Key string -> list (Key * string).
Hypothesis range_entries : forall m, range m ≡ₚ map_to_list m.

(** The body of the loop: [tags[tag] = value.String()] or
    [tags[tag] = value]. *)
Definition setTag (ctx : Context) (tags : gmap string string)
    (entry : Key * string) : gmap string string :=
  match ctxValue ctx entry.1 with
  | Some (VStringer value) => <[entry.2 := value]> tags
  | Some (VString value) => <[entry.2 := value]> tags
  | _ => tags
  end.

(** [None] is the nil context, and the nil map. *)
Definition LogTagsFromContextToMap (ctx : option Context)
    : option (gmap string string) :=
  match ctx with
  | None => None
  | Some ctx =>
      match LogTagsFromContext ctx with
      | None => None
      | Some logTags =>
          if (size logTags =? 0)%nat then None
          else Some (fold_left (setTag ctx) (range logTags) ∅)
      end
  end.

(** The string a context value is logged as, if it is logged. *)
Definition rendered (v : option Value) : option string :=
  match v with
  | Some (VStringer s) | Some (VString s) => Some s
  | _ => None
  end.

Lemma setTag_rendered (ctx : Context) tags (entry : Key * string) :
  setTag ctx tags entry =
    match rendered (ctxValue ctx entry.1) with
    | Some s => <[entry.2 := s]> tags
    | None => tags
    end.
Proof. unfold setTag, rendered. destruct (ctxValue ctx entry.1) as [[s|s|]|]; reflexivity. Qed.

Lemma fold_setTag_sound (ctx : Context) (l : list (Key * string)) acc t v :
  fold_left (setTag ctx) l acc !! t = Some v ->
  acc !! t = Some v
  \/ exists key, In (key, t) l /\ rendered (ctxValue ctx key) = Some v.
Proof.
  revert acc. induction l as [|[key tag] l IH]; intros acc; cbn; [now left|].
  intros Hres. destruct (IH _ Hres) as [Hacc|(key' & Hin & Hr)].
  - rewrite setTag_rendered in Hacc. cbn in Hacc.
    destruct (rendered (ctxValue ctx key)) as [s|] eqn:Hr; [|now left].
    destruct (decide (tag = t)) as [->|Hne].
    + rewrite lookup_insert_eq in Hacc. injection Hacc as ->.
      right. exists key. split; [now left|exact Hr].
    + rewrite lookup_insert_ne in Hacc by exact Hne. now left.
  - right. exists key'. split; [now right|exact Hr].
Qed.

Lemma fold_setTag_complete (ctx : Context) (l : list (Key * string)) acc t v :
  (forall key v', In (key, t) l ->
     rendered (ctxValue ctx key) = Some v' -> v' = v) ->
  acc !! t = Some v
  \/ (exists key, In (key, t) l /\ rendered (ctxValue ctx key) = Some v) ->
  fold_left (setTag ctx) l acc !! t = Some v.
Proof.
  revert acc. induction l as [|[key tag] l IH]; intros acc Huniq Hsrc; cbn.
  - destruct Hsrc as [Hacc|(key & [] & _)]. exact Hacc.
  - apply IH; [intros key' v' Hin; apply Huniq; now right|].
    rewrite setTag_rendered. cbn.
    destruct Hsrc as [Hacc|(key' & [Heq|Hin] & Hr)].
    + left. destruct (rendered (ctxValue ctx key)) as [s|] eqn:Hr; [|exact Hacc].
      destruct (decide (tag = t)) as [->|Hne].
      * rewrite lookup_insert_eq. f_equal. apply (Huniq key); [now left|exact Hr].
      * now rewrite lookup_insert_ne.
    + injection Heq as -> ->. left. rewrite Hr. apply lookup_insert_eq.
    + right. now exists key'.
Qed.

Lemma LogTagsFromContextToMap_spec (ctx : Context)
    (tags : gmap string string) :
  LogTagsFromContextToMap (Some ctx) = Some tags ->
  exists logTags,
    LogTagsFromContext ctx = Some logTags
    /\ logTags <> ∅
    /\ (forall tag s, tags !! tag = Some s ->
          exists key, logTags !! key = Some tag
                      /\ rendered (ctxValue ctx key) = Some s)
    /\ (forall key tag s,
          logTags !! key = Some tag ->
          rendered (ctxValue ctx key) = Some s ->
          (forall key' s', logTags !! key' = Some tag ->
             rendered (ctxValue ctx key') = Some s' -> s' = s) ->
          tags !! tag = Some s).
Proof.
  unfold LogTagsFromContextToMap.
  destruct (LogTagsFromContext ctx) as [logTags|]; [|discriminate].
  destruct (Nat.eqb_spec (size logTags) 0) as [|Hsize]; [discriminate|].
  intros [= <-]. exists logTags.
  assert (Hin : forall key tag,
            In (key, tag) (range logTags) <-> logTags !! key = Some tag).
  { intros key tag. rewrite <- list_elem_of_In, (range_entries logTags).
    apply elem_of_map_to_list. }
  split; [reflexivity|]. split; [now apply map_size_non_empty_iff|]. split.
  - intros tag s Hres.
    destruct (fold_setTag_sound _ _ _ _ _ Hres) as [Hacc|(key & Hk & Hr)].
    + now rewrite lookup_empty in Hacc.
    + exists key. split; [now apply Hin|exact Hr].
  - intros key tag s Hk Hr Hagree.
    apply fold_setTag_complete.
    + intros key' s' Hk' Hr'. apply (Hagree key'); [now apply Hin|exact Hr'].
    + right. exists key. split; [now apply Hin|exact Hr].
Qed.

(** X7. Whatever the order in which the log tags are visited: a non-nil
    result comes from a context with at least one log tag; every entry
    [tag -> s] of it comes from a key that is logged under that tag and
    whose context value is the Stringer or string [s]; and a key's value
    is found under its tag whenever the values logged under that tag all
    agree. *)
Theorem LogTagsFromContextToMap_entries (ctx : Context)
    (tags : gmap string string) :
  LogTagsFromContextToMap (Some ctx) = Some tags ->
  exists logTags,
    LogTagsFromContext ctx = Some logTags
    /\ logTags <> ∅
    /\ (forall tag s, tags !! tag = Some s ->
          exists key, logTags !! key = Some tag
                      /\ rendered (ctxValue ctx key) = Some s)
    /\ (forall key tag s,
          logTags !! key = Some tag ->
          rendered (ctxValue ctx key) = Some s ->
          (forall key' s', logTags !! key' = Some tag ->
             rendered (ctxValue ctx key') = Some s' -> s' = s) ->
          tags !! tag = Some s).
Proof. apply LogTagsFromContextToMap_spec. Qed.

(** *** ctxWithRandomID *)

(** [context.WithValue], and [logger.NewContextWithLogTags], which is
    declared in the logger package. *)
Variable WithValue : Context -> Key -> Value -> Context.
Variable NewContextWithLogTags : Context -> gmap Key string -> Context.

Variable RandState : Type.
Variable cryptoRandRead :
  list byte -> RandState -> (list byte * goerror) * RandState.

(** [log] is [None] for a nil logger; a logger is the list of errors it
    was warned about. *)
Definition ctxWithRandomID (ctx : Context) (tagKey : Key) (tagName : string)
    (log : option (list error)) (s : RandState)
    : Context * option (list error) * RandState :=
  (* Tag each request with a unique ID *)
  let logTags : gmap Key string := <[tagKey := tagName]> ∅ in
  let newCtx := NewContextWithLogTags ctx logTags in
  let '((id, err), s) := MakeRandomRequestID RandState cryptoRandRead s in
  match err with
  | Some e =>
      (newCtx,
       match log with
       | Some warnings => Some (warnings ++ [e])
       | None => None
       end,
       s)
  | None => (WithValue newCtx tagKey (VString id), log, s)
  end.

Hypothesis cryptoRandRead_in_place :
  forall buf s, length (cryptoRandRead buf s).1.1 = length buf.

(** A context made by [WithValue] answers the new key with the new value
    and every other key as the parent does. *)
Hypothesis Value_WithValue :
  forall ctx key v key',
    ctxValue (WithValue ctx key v) key' =
      if decide (key' = key) then Some v else ctxValue ctx key'.

(** X8. [ctxWithRandomID] always returns the context tagged by
    [NewContextWithLogTags] with the one tag [tagKey -> tagName]. When the
    random source works, the context also carries under [tagKey] a string
    of 22 characters, the request ID, every other key is answered as by the
    tagged context, and nothing is logged. When it fails, the tagged context
    is returned as it is and the error is reported to the logger if there is
    one; a nil logger is not touched. *)
Theorem ctxWithRandomID_value (ctx : Context) (tagKey : Key)
    (tagName : string) (log : option (list error)) (s : RandState) :
  let tagged := NewContextWithLogTags ctx (<[tagKey := tagName]> ∅) in
  let read := cryptoRandRead (repeat x00 16) s in
  let out := ctxWithRandomID ctx tagKey tagName log s in
  out.2 = read.2
  /\ match read.1.2 with
     | None =>
         exists id,
           (MakeRandomRequestID RandState cryptoRandRead s).1 = (id, None)
           /\ String.length id = 22%nat
           /\ out.1.1 = WithValue tagged tagKey (VString id)
           /\ ctxValue out.1.1 tagKey = Some (VString id)
           /\ (forall key, key <> tagKey ->
                 ctxValue out.1.1 key = ctxValue tagged key)
           /\ out.1.2 = log
     | Some e =>
         out.1.1 = tagged
         /\ out.1.2 = (fun warnings => warnings ++ [e]) <$> log
     end.
Proof.
  intros tagged read out. subst out. unfold ctxWithRandomID.
  unfold MakeRandomRequestID. change (128 / 8)%nat with 16%nat. fold read.
  assert (Hlen : length read.1.1 = 16%nat).
  { unfold read. rewrite cryptoRandRead_in_place. reflexivity. }
  destruct read as [[buf err] s']. cbn in Hlen |- *.
  destruct err as [e|]; cbn.
  - split; [reflexivity|]. split; [reflexivity|]. destruct log; reflexivity.
  - split; [reflexivity|].
    exists (TrimSuffix (EncodeToString buf) "==").
    split; [reflexivity|]. split.
    { destruct (Encode_16 buf Hlen) as (body & Hbody & _ & Henc).
      unfold EncodeToString. rewrite Henc, string_of_list_ascii_app.
      change (string_of_list_ascii [padChar; padChar]) with "=="%string.
      rewrite TrimSuffix_append, <- Hbody. clear.
      induction body as [|ch body IH]; simpl; congruence. }
    split; [reflexivity|]. split.
    { rewrite Value_WithValue. now rewrite decide_True. }
    split; [|reflexivity].
    intros key Hne. rewrite Value_WithValue. now rewrite decide_False.
Qed.

(** X9. The request ID reaches the log tags. Suppose the tagged context
    reports [tagKey] under [tagName] among its log tags and no other key
    under that name, and storing a value under [tagKey] does not disturb
    the log tags. Then, when the random source works,
    [LogTagsFromContextToMap] of the context [ctxWithRandomID] returns is a
    map that shows the request ID under [tagName]. *)
Theorem ctxWithRandomID_logged (ctx : Context) (tagKey : Key)
    (tagName : string) (log : option (list error)) (s : RandState)
    (logTags : gmap Key string) (id : string) :
  let tagged := NewContextWithLogTags ctx (<[tagKey := tagName]> ∅) in
  LogTagsFromContext tagged = Some logTags ->
  logTags !! tagKey = Some tagName ->
  (forall key, logTags !! key = Some tagName -> key = tagKey) ->
  (forall v, LogTagsFromContext (WithValue tagged tagKey v)
             = LogTagsFromContext tagged) ->
  (MakeRandomRequestID RandState cryptoRandRead s).1 = (id, None) ->
  exists tags,
    LogTagsFromContextToMap (Some (ctxWithRandomID ctx tagKey tagName log s).1.1)
      = Some tags
    /\ tags !! tagName = Some id.
Proof.
  intros tagged Htags Hkey Huniq Hkeep Hid.
  unfold ctxWithRandomID. fold tagged.
  destruct (MakeRandomRequestID RandState cryptoRandRead s) as [[id' err] s'].
  cbn in Hid. injection Hid as -> ->. cbn.
  unfold LogTagsFromContextToMap. rewrite Hkeep, Htags.
  destruct (Nat.eqb_spec (size logTags) 0) as [Hsize|Hsize].
  { apply map_size_empty_iff in Hsize. subst logTags.
    now rewrite lookup_empty in Hkey. }
  eexists. split; [reflexivity|].
  assert (Hin : forall key tag,
            In (key, tag) (range logTags) <-> logTags !! key = Some tag).
  { intros key tag. rewrite <- list_elem_of_In, (range_entries logTags).
    apply elem_of_map_to_list. }
  assert (Hval : rendered (ctxValue (WithValue tagged tagKey (VString id)) tagKey)
                 = Some id).
  { rewrite Value_WithValue. now rewrite decide_True. }
  apply fold_setTag_complete.
  - intros key s0 Hk Hr. apply Hin, Huniq in Hk. subst key.
    rewrite Hval in Hr. congruence.
  - right. exists tagKey. split; [now apply Hin|exact Hval].
Qed.

End LogTags.

(** *** A context for the examples

    A context is the log tags it reports and the values it holds; keys are
    numbers. *)

Record MemContext : Type := mkMemContext {
  tagsOf : option (gmap nat string);
  valuesOf : gmap nat Value
}.

Definition memValue (ctx : MemContext) (key : nat) : option Value :=
  valuesOf ctx !! key.

Definition memWithValue (ctx : MemContext) (key : nat) (v : Value)
    : MemContext :=
  {| tagsOf := tagsOf ctx; valuesOf := <[key := v]> (valuesOf ctx) |}.

Definition memNewContextWithLogTags (ctx : MemContext)
    (logTagsToAdd : gmap nat string) : MemContext :=
  {| tagsOf := Some (logTagsToAdd ∪ default ∅ (tagsOf ctx));
     valuesOf := valuesOf ctx |}.

Definition background : MemContext := {| tagsOf := None; valuesOf := ∅ |}.

Definition requestContext : MemContext :=
  {| tagsOf := Some {[ 1%nat := "ID"%string; 2%nat := "OP"%string;
                       3%nat := "UNSET"%string ]};
     valuesOf := {[ 1%nat := VString "AAECAwQFBgcICQoLDA0ODw";
                    2%nat := VStringer "sync"; 4%nat := VOther ]} |}.

Lemma memValue_memWithValue (ctx : MemContext) key v key' :
  memValue (memWithValue ctx key v) key' =
    if decide (key' = key) then Some v else memValue ctx key'.
Proof.
  unfold memValue, memWithValue. cbn.
  destruct (decide (key' = key)) as [->|Hne].
  - apply lookup_insert_eq.
  - now apply lookup_insert_ne.
Qed.

Example LogTagsFromContextToMap_requestContext :
  LogTagsFromContextToMap MemContext memValue tagsOf map_to_list
    (Some requestContext)
  = Some {[ "ID"%string := "AAECAwQFBgcICQoLDA0ODw"%string;
            "OP"%string := "sync"%string ]}
  /\ LogTagsFromContextToMap MemContext memValue tagsOf map_to_list
       (Some background) = None.
Proof. split; vm_compute; reflexivity. Qed.

Lemma LogTagsFromContextToMap_entries_witness :
  exists logTags,
    tagsOf requestContext = Some logTags
    /\ logTags <> ∅
    /\ (forall tag s,
          ({[ "ID"%string := "AAECAwQFBgcICQoLDA0ODw"%string;
              "OP"%string := "sync"%string ]} : gmap string string) !! tag
          = Some s ->
          exists key, logTags !! key = Some tag
                      /\ rendered (memValue requestContext key) = Some s)
    /\ (forall key tag s,
          logTags !! key = Some tag ->
          rendered (memValue requestContext key) = Some s ->
          (forall key' s', logTags !! key' = Some tag ->
             rendered (memValue requestContext key') = Some s' -> s' = s) ->
          ({[ "ID"%string := "AAECAwQFBgcICQoLDA0ODw"%string;
              "OP"%string := "sync"%string ]} : gmap string string) !! tag
          = Some s).
Proof.
  apply (LogTagsFromContextToMap_entries MemContext memValue tagsOf
           map_to_list (fun m => reflexivity _) requestContext).
  vm_compute. reflexivity.
Defined.

Lemma ctxWithRandomID_value_witness :
  let out := ctxWithRandomID MemContext memWithValue memNewContextWithLogTags
               N counterRead background 1%nat "ID" None 0%N in
  out.2 = 16%N
  /\ exists id,
       (MakeRandomRequestID N counterRead 0%N).1 = (id, None)
       /\ String.length id = 22%nat
       /\ out.1.1 = memWithValue
                      (memNewContextWithLogTags background
                         (<[1%nat := "ID"%string]> ∅))
                      1%nat (VString id)
       /\ memValue out.1.1 1%nat = Some (VString id)
       /\ (forall key, key <> 1%nat ->
             memValue out.1.1 key
             = memValue (memNewContextWithLogTags background
                           (<[1%nat := "ID"%string]> ∅)) key)
       /\ out.1.2 = None.
Proof.
  apply (ctxWithRandomID_value MemContext memValue memWithValue
           memNewContextWithLogTags N counterRead).
  - intros buf s. cbn. apply length_imap.
  - apply memValue_memWithValue.
Defined.

Lemma ctxWithRandomID_logged_witness :
  exists tags,
    LogTagsFromContextToMap MemContext memValue tagsOf map_to_list
      (Some (ctxWithRandomID MemContext memWithValue memNewContextWithLogTags
               N counterRead background 1%nat "ID" None 0%N).1.1)
    = Some tags
    /\ tags !! "ID"%string = Some "AAECAwQFBgcICQoLDA0ODw"%string.
Proof.
  apply (ctxWithRandomID_logged MemContext memValue tagsOf map_to_list
           (fun m => reflexivity _) memWithValue memNewContextWithLogTags
           N counterRead memValue_memWithValue
           background 1%nat "ID" None 0%N
           (<[1%nat := "ID"%string]> ∅ ∪ ∅)).
  - reflexivity.
  - rewrite (right_id ∅ (∪)). apply lookup_insert_eq.
  - intros key. rewrite (right_id ∅ (∪)).
    intros Hk. apply lookup_insert_Some in Hk as [[<- _]|[_ Hk]];
      [reflexivity|now rewrite lookup_empty in Hk].
  - intros v. reflexivity.
  - reflexivity.
Defined.

(** *** BoolForString

    [strings.TrimSpace] removes the leading and the trailing white space
    runes of a string, white space being what [unicode.IsSpace] says. A Go
    string is a sequence of bytes; a rune is white space exactly when its
    UTF-8 bytes are one of the sequences below, and bytes that do not
    decode count as a rune that is not white space. *)

Definition asciiSpace : list ascii :=
  ["009"; "010"; "011"; "012"; "013"; "032"]%char.

Definition spaceRunes : list (list ascii) :=
  map (fun ch => [ch]) asciiSpace ++
  [ ["194"; "133"];                 (* U+0085 *)
    ["194"; "160"];                 (* U+00A0 *)
    ["225"; "154"; "128"];          (* U+1680 *)
    ["226"; "128"; "128"]; ["226"; "128"; "129"]; ["226"; "128"; "130"];
    ["226"; "128"; "131"]; ["226"; "128"; "132"]; ["226"; "128"; "133"];
    ["226"; "128"; "134"]; ["226"; "128"; "135"]; ["226"; "128"; "136"];
    ["226"; "128"; "137"]; ["226"; "128"; "138"];   (* U+2000 .. U+200A *)
    ["226"; "128"; "168"];          (* U+2028 *)
    ["226"; "128"; "169"];          (* U+2029 *)
    ["226"; "128"; "175"];          (* U+202F *)
    ["226"; "129"; "159"];          (* U+205F *)
    ["227"; "128"; "128"] ]%char.   (* U+3000 *)

Fixpoint isPrefix (p s : list ascii) : bool :=
  match p, s with
  | [], _ => true
  | a :: p', ch :: s' => Ascii.eqb a ch && isPrefix p' s'
  | _ :: _, [] => false
  end.

(** The string without its first rune, if that rune is one of [runes]. *)
Fixpoint stripRune (runes : list (list ascii)) (s : list ascii)
    : option (list ascii) :=
  match runes with
  | [] => None
  | p :: rest =>
      if isPrefix p s then Some (drop (length p) s) else stripRune rest s
  end.

(** Strips leading runes while they are among [runes]; [fuel] bounds the
    number of runes, and the length of the string is enough. *)
Fixpoint trimRunes (runes : list (list ascii)) (fuel : nat) (s : list ascii)
    : list ascii :=
  match fuel with
  | O => s
  | S fuel' =>
      match stripRune runes s with
      | Some s' => trimRunes runes fuel' s'
      | None => s
      end
  end.

Definition trimLeft (s : list ascii) : list ascii :=
  trimRunes spaceRunes (length s) s.

(** From the right the runes are read backwards. *)
Definition trimRight (s : list ascii) : list ascii :=
  rev (trimRunes (map (@rev ascii) spaceRunes) (length s) (rev s)).

Definition TrimSpace (s : string) : string :=
  string_of_list_ascii (trimRight (trimLeft (list_ascii_of_string s))).

(** BoolForString returns false if trimmed string is "" (empty), "0",
    "false", or "no" *)
Definition BoolForString (s : string) : bool :=
  let s := TrimSpace s in
  if String.eqb s "" || String.eqb s "0" || String.eqb s "false"
     || String.eqb s "no"
  then false
  else true.

Example BoolForString_examples :
  BoolForString "" = false
  /\ BoolForString " no " = false
  /\ BoolForString "false" = false
  /\ BoolForString "0" = false
  /\ BoolForString "False" = true
  /\ BoolForString "1" = true
  /\ BoolForString "n o" = true.
Proof. repeat split; reflexivity. Qed.

Definition reversedRunes : list (list ascii) := map (@rev ascii) spaceRunes.

Lemma stripRune_shorter (runes : list (list ascii)) (s s' : list ascii) :
  forallb (fun p => negb (length p =? 0)%nat) runes = true ->
  stripRune runes s = Some s' ->
  (length s' < length s)%nat.
Proof.
  induction runes as [|p runes IH]; cbn; [discriminate|].
  intros Hne. apply andb_true_iff in Hne as [Hp Hne].
  destruct (isPrefix p s) eqn:Hpre; [|now apply IH].
  intros [= <-]. rewrite length_drop.
  destruct p as [|a p]; [discriminate|].
  destruct s as [|ch s]; [discriminate|]. cbn. lia.
Qed.

Lemma stripRune_nil (runes : list (list ascii)) :
  forallb (fun p => negb (length p =? 0)%nat) runes = true ->
  stripRune runes [] = None.
Proof.
  induction runes as [|p runes IH]; cbn; [reflexivity|].
  intros Hne. apply andb_true_iff in Hne as [Hp Hne].
  destruct p; [discriminate|]. cbn. now apply IH.
Qed.

Lemma trimRunes_fuel (runes : list (list ascii)) (n : nat) (s : list ascii) :
  forallb (fun p => negb (length p =? 0)%nat) runes = true ->
  (length s <= n)%nat ->
  trimRunes runes n s = trimRunes runes (length s) s.
Proof.
  intros Hne. revert s.
  induction n as [n IH] using lt_wf_ind. intros s Hlen.
  destruct s as [|ch s].
  { destruct n; cbn; [reflexivity|]. now rewrite stripRune_nil. }
  destruct n as [|n]; [cbn in Hlen; lia|].
  cbn [trimRunes length].
  destruct (stripRune runes (ch :: s)) as [s'|] eqn:Hs; [|reflexivity].
  pose proof (stripRune_shorter _ _ _ Hne Hs) as Hshort. cbn in Hshort, Hlen.
  rewrite (IH n) by lia. rewrite (IH (length s)) by lia. reflexivity.
Qed.

(** One step of trimming. *)
Lemma trimRunes_step (runes : list (list ascii)) (s : list ascii) :
  forallb (fun p => negb (length p =? 0)%nat) runes = true ->
  trimRunes runes (length s) s =
    match stripRune runes s with
    | Some s' => trimRunes runes (length s') s'
    | None => s
    end.
Proof.
  intros Hne. destruct s as [|ch s].
  { cbn. now rewrite stripRune_nil. }
  cbn [trimRunes length].
  destruct (stripRune runes (ch :: s)) as [s'|] eqn:Hs; [|reflexivity].
  pose proof (stripRune_shorter _ _ _ Hne Hs) as Hshort. cbn in Hshort.
  apply trimRunes_fuel; [exact Hne|lia].
Qed.

Lemma spaceRunes_nonempty :
  forallb (fun p => negb (length p =? 0)%nat) spaceRunes = true.
Proof. reflexivity. Qed.

Lemma reversedRunes_nonempty :
  forallb (fun p => negb (length p =? 0)%nat) reversedRunes = true.
Proof. reflexivity. Qed.

(** No white space rune is the beginning of another one, read forwards or
    backwards: a white space rune in front is stripped whole. *)
Lemma stripRune_spaceRune (p x : list ascii) :
  p ∈ spaceRunes ->
  stripRune spaceRunes (p ++ x) = Some x
  /\ stripRune reversedRunes (rev p ++ x) = Some x.
Proof.
  unfold spaceRunes, asciiSpace. cbn [map app]. intros Hp.
  repeat (apply elem_of_cons in Hp as [->|Hp]; [split; reflexivity|]).
  now apply elem_of_nil in Hp.
Qed.

Lemma trimRunes_spaces (ls : list (list ascii)) (x : list ascii) :
  Forall (fun p => p ∈ spaceRunes) ls ->
  trimRunes spaceRunes (length (concat ls ++ x)) (concat ls ++ x)
  = trimRunes spaceRunes (length x) x.
Proof.
  induction 1 as [|p ls Hp _ IH]; [reflexivity|].
  rewrite (trimRunes_step _ _ spaceRunes_nonempty).
  cbn [concat]. rewrite <- app_assoc.
  destruct (stripRune_spaceRune p (concat ls ++ x) Hp) as [-> _]. exact IH.
Qed.

Lemma trimRunes_spaces_reversed (rs : list (list ascii)) (x : list ascii) :
  Forall (fun p => p ∈ spaceRunes) rs ->
  trimRunes reversedRunes (length (rev (concat rs) ++ x)) (rev (concat rs) ++ x)
  = trimRunes reversedRunes (length x) x.
Proof.
  intros Hrs. revert x. induction Hrs as [|p rs Hp _ IH]; [reflexivity|].
  intros x. cbn [concat]. rewrite rev_app_distr, <- app_assoc, IH.
  rewrite (trimRunes_step _ _ reversedRunes_nonempty).
  now destruct (stripRune_spaceRune p x Hp) as [_ ->].
Qed.

(** The bytes a white space rune starts with. *)
Definition isStart (ch : ascii) : bool :=
  existsb (fun p => match p with a :: _ => Ascii.eqb a ch | [] => false end)
          spaceRunes.

Definition startsRune (r : list ascii) : bool :=
  match r with [] => true | ch :: _ => isStart ch end.

Lemma concat_startsRune (rs : list (list ascii)) :
  Forall (fun p => p ∈ spaceRunes) rs -> startsRune (concat rs) = true.
Proof.
  destruct 1 as [|p rs Hp _]; [reflexivity|].
  revert Hp. unfold spaceRunes, asciiSpace. cbn [map app concat]. intros Hp.
  repeat (apply elem_of_cons in Hp as [->|Hp]; [reflexivity|]).
  now apply elem_of_nil in Hp.
Qed.

Lemma isPrefix_app (p s r : list ascii) :
  forallb (fun a => negb (isStart a)) p = true ->
  startsRune r = true ->
  isPrefix p (s ++ r) = isPrefix p s.
Proof.
  intros Hp Hr. revert s Hp. induction p as [|a p IH]; [reflexivity|].
  intros s Hp. cbn [forallb] in Hp. apply andb_true_iff in Hp as [Ha Hp].
  destruct s as [|ch s]; cbn [app isPrefix].
  - destruct r as [|c r]; [reflexivity|]. cbn [isPrefix].
    destruct (Ascii.eqb_spec a c) as [->|_]; [|reflexivity].
    change (isStart c = true) in Hr. rewrite Hr in Ha. discriminate.
  - now rewrite IH.
Qed.

Lemma isPrefix_length (p s : list ascii) :
  isPrefix p s = true -> (length p <= length s)%nat.
Proof.
  revert s. induction p as [|a p IH]; intros s; cbn; [lia|].
  destruct s as [|ch s]; [discriminate|].
  intros H. apply andb_true_iff in H as [_ H]. apply IH in H. cbn. lia.
Qed.

Definition continues (p : list ascii) : bool :=
  match p with
  | [] => false
  | _ :: tl => forallb (fun a => negb (isStart a)) tl
  end.

Lemma stripRune_app (runes : list (list ascii)) (ch : ascii) (s r : list ascii) :
  forallb continues runes = true ->
  startsRune r = true ->
  stripRune runes ((ch :: s) ++ r)
  = option_map (fun s' => s' ++ r) (stripRune runes (ch :: s)).
Proof.
  intros Hrunes Hr. induction runes as [|p runes IH]; [reflexivity|].
  cbn [forallb] in Hrunes. apply andb_true_iff in Hrunes as [Hp Hrunes].
  cbn [stripRune].
  assert (isPrefix p ((ch :: s) ++ r) = isPrefix p (ch :: s)) as ->.
  { destruct p as [|a p]; [discriminate|]. cbn [app isPrefix].
    now rewrite isPrefix_app. }
  destruct (isPrefix p (ch :: s)) eqn:Hpre; [|now apply IH].
  cbn [option_map]. f_equal. apply drop_app_le. now apply isPrefix_length.
Qed.

Lemma spaceRunes_continue : forallb continues spaceRunes = true.
Proof. reflexivity. Qed.

Lemma trimLeft_spaces (ls : list (list ascii)) :
  Forall (fun p => p ∈ spaceRunes) ls -> trimLeft (concat ls) = [].
Proof.
  intros Hls. unfold trimLeft.
  rewrite <- (app_nil_r (concat ls)). now rewrite trimRunes_spaces.
Qed.

(** Trailing white space does not change what is trimmed on the left,
    unless everything is. *)
Lemma trimLeft_app_spaces (rs : list (list ascii)) (s : list ascii) :
  Forall (fun p => p ∈ spaceRunes) rs ->
  trimLeft (s ++ concat rs)
  = match trimLeft s with [] => [] | t => t ++ concat rs end.
Proof.
  intros Hrs. unfold trimLeft.
  pose proof (trimLeft_spaces _ Hrs) as Hall. unfold trimLeft in Hall.
  remember (length s) as n eqn:Hn. revert s Hn.
  induction n as [n IH] using lt_wf_ind. intros s ->.
  destruct s as [|ch s]; [exact Hall|].
  rewrite !(trimRunes_step _ _ spaceRunes_nonempty).
  rewrite (stripRune_app _ _ _ _ spaceRunes_continue (concat_startsRune _ Hrs)).
  destruct (stripRune spaceRunes (ch :: s)) as [s'|] eqn:Hs; [|reflexivity].
  cbn [option_map].
  apply (IH (length s')); [|reflexivity].
  exact (stripRune_shorter _ _ _ spaceRunes_nonempty Hs).
Qed.

Lemma trimRight_app_spaces (rs : list (list ascii)) (t : list ascii) :
  Forall (fun p => p ∈ spaceRunes) rs ->
  trimRight (t ++ concat rs) = trimRight t.
Proof.
  intros Hrs. unfold trimRight. fold reversedRunes.
  rewrite <- (List.length_rev (t ++ concat rs)), <- (List.length_rev t).
  now rewrite rev_app_distr, trimRunes_spaces_reversed.
Qed.

Lemma trimRight_nil : trimRight [] = [].
Proof. reflexivity. Qed.

Lemma list_ascii_of_string_app (a b : string) :
  list_ascii_of_string (a ++ b)
  = (list_ascii_of_string a ++ list_ascii_of_string b)%list.
Proof. induction a as [|ch a IH]; [reflexivity|]. simpl. now f_equal. Qed.

Lemma TrimSpace_outer_spaces (ls rs : list (list ascii)) (s : string) :
  Forall (fun p => p ∈ spaceRunes) ls ->
  Forall (fun p => p ∈ spaceRunes) rs ->
  TrimSpace (string_of_list_ascii (concat ls) ++ s
             ++ string_of_list_ascii (concat rs))
  = TrimSpace s.
Proof.
  intros Hls Hrs. unfold TrimSpace.
  rewrite !list_ascii_of_string_app, !list_ascii_of_string_of_list_ascii.
  unfold trimLeft at 1. rewrite (trimRunes_spaces _ _ Hls). fold (trimLeft (list_ascii_of_string s ++ concat rs)).
  rewrite (trimLeft_app_spaces _ _ Hrs).
  destruct (trimLeft (list_ascii_of_string s)) as [|ch t]; [reflexivity|].
  now rewrite (trimRight_app_spaces _ _ Hrs).
Qed.

(** X12. [BoolForString] looks at the string without the white space
    around it: putting any white space runes (ASCII or not) before and
    after a string does not change the answer, and a string of white space
    only gives false. *)
Theorem BoolForString_ignores_outer_space
    (ls rs : list (list ascii)) (s : string) :
  Forall (fun p => p ∈ spaceRunes) ls ->
  Forall (fun p => p ∈ spaceRunes) rs ->
  BoolForString (string_of_list_ascii (concat ls) ++ s
                 ++ string_of_list_ascii (concat rs))
  = BoolForString s
  /\ BoolForString (string_of_list_ascii (concat ls)) = false.
Proof.
  intros Hls Hrs. split.
  - unfold BoolForString. now rewrite (TrimSpace_outer_spaces _ _ _ Hls Hrs).
  - unfold BoolForString, TrimSpace.
    rewrite list_ascii_of_string_of_list_ascii.
    now rewrite (trimLeft_spaces _ Hls).
Qed.

(** A tab and U+2000 in front, a no-break space and a line feed behind. *)
Definition spacesBefore : list (list ascii) :=
  [ ["009"]; ["226"; "128"; "128"] ]%char.

Definition spacesAfter : list (list ascii) :=
  [ ["194"; "160"]; ["010"] ]%char.

Lemma BoolForString_ignores_outer_space_witness :
  BoolForString (string_of_list_ascii (concat spacesBefore) ++ "no"
                 ++ string_of_list_ascii (concat spacesAfter))
  = BoolForString "no"
  /\ BoolForString (string_of_list_ascii (concat spacesBefore)) = false.
Proof.
  apply (BoolForString_ignores_outer_space spacesBefore spacesAfter "no");
    apply (bool_decide_unpack _); vm_compute; exact I.
Defined.

End Util.

(** ** Quota reclamation *)

Module QuotaReclamation.

(** Modelled from the spec: [blockRefLocalStatus] is declared outside the
    sampled sources; the spec gives a reference the states live, archived
    and deleted. *)
Inductive blockRefLocalStatus : Type :=
| liveBlockRef
| archivedBlockRef
| deletedBlockRef.

Section Engine.

Context `{Countable BlockID} `{Countable BlockRefNonce}.

Abbreviation Ptr := (BlockPointer BlockID BlockRefNonce).
Abbreviation BlockRefs := (gmap BlockID (gmap BlockRefNonce blockRefLocalStatus)).

(** [totalBlockRefs], from the test file: the sum of [len(refs)] over the
    blocks of the map (the order of iteration does not matter to a sum). *)
Definition totalBlockRefs (m : BlockRefs) : nat :=
  map_fold (fun _ refs n => (n + size refs)%nat) 0%nat m.

(** Modelled from the spec: the part of the Block Store contract the
    reclamation engine consumes, for one folder: [removeReference(id,
    context) -> error], and the debug enumeration [allReferences], for every
    BlockID its map of RefNonce to status. The engine is written against
    this contract, not against a storage medium. *)
Class BlockStore (S : Type) : Type := {
  removeReference : BlockID -> Ptr -> S -> goerror * S;
  allReferences : S -> BlockRefs
}.

(** Modelled from the spec: a metadata revision as the engine reads it: its
    number, its timestamp, and the block pointers it newly unreferenced. *)
Record Revision : Type := mkRevision {
  revision : Z;
  unrefTime : Z;
  unrefs : list Ptr
}.

(** Modelled from the spec: what a folder's engine works on: the store, the
    revision history in order (oldest first), and the reclamation
    watermark, the last revision fully processed. *)
Record Folder {S : Type} : Type := mkFolder {
  store : S;
  history : list Revision;
  watermark : Z
}.
Arguments Folder : clear implicits.

(** The configuration constants [MinUnrefAge] and [MaxPointersPerRun]. *)
Variable QuotaReclamationMinUnrefAge : Z.
Variable numPointersPerGCThreshold : nat.

Section Run.

Context {S : Type} `{BlockStore S}.

(** Modelled from the spec: step 2 of the run, the revisions strictly after
    the last committed watermark. *)
Definition scan (f : Folder S) : list Revision :=
  List.filter (fun r => watermark f <? revision r) (history f).

(** Modelled from the spec: step 3, the age filter: only pointers whose
    unreferenced-since timestamp is at least [MinUnrefAge] older than the
    current clock are eligible. *)
Definition oldEnough (now : Z) (r : Revision) : bool :=
  unrefTime r + QuotaReclamationMinUnrefAge <=? now.

(** Modelled from the spec: the pointers the revisions after the watermark
    unreferenced that pass the age filter, in the order of the revisions. *)
Definition eligible (now : Z) (f : Folder S) : list Ptr :=
  flat_map (fun r => if oldEnough now r then unrefs r else []) (scan f).

(** Modelled from the spec: step 4, bounded batching: the eligible pointers
    up to the per-run threshold, in the order of the revisions. *)
Definition batch (now : Z) (f : Folder S) : list Ptr :=
  take numPointersPerGCThreshold (eligible now f).

(** Modelled from the spec: step 5, the watermark moves to the last revision
    whose pointers were all in the batch and stays just before the first
    revision that was not processed completely. *)
Fixpoint advance (now : Z) (budget : nat) (mark : Z) (revs : list Revision)
    : Z :=
  match revs with
  | [] => mark
  | r :: rest =>
      if oldEnough now r && (length (unrefs r) <=? budget)%nat
      then advance now (budget - length (unrefs r)) (revision r) rest
      else mark
  end.

(** Modelled from the spec: step 5, one remove-reference call per pointer of
    the batch; step 6, the first store error ends the commit. *)
Fixpoint removeAll (ptrs : list Ptr) (s : S) : goerror * S :=
  match ptrs with
  | [] => (None, s)
  | p :: rest =>
      let (err, s') := removeReference (ID p) p s in
      if isErr err then (err, s') else removeAll rest s'
  end.

(** Modelled from the spec: one reclamation run at clock [now] (section 4.3,
    steps 2 to 6; the wait for pending archives of step 1 comes before it).
    A store error leaves the watermark where it was and is reported. *)
Definition run (now : Z) (f : Folder S) : goerror * Folder S :=
  let (err, s') := removeAll (batch now f) (store f) in
  if isErr err then
    (err, {| store := s'; history := history f; watermark := watermark f |})
  else
    (None,
     {| store := s'; history := history f;
        watermark := advance now numPointersPerGCThreshold (watermark f)
                       (scan f) |}).

(** *** Age gating *)

Lemma eligible_nil_young (now : Z) (f : Folder S) :
  (forall r p, In r (history f) -> In p (unrefs r) ->
     now - unrefTime r < QuotaReclamationMinUnrefAge) ->
  eligible now f = [].
Proof.
  intros Hyoung. unfold eligible, scan.
  induction (history f) as [|r revs IH]; [reflexivity|].
  assert (Hrest : forall r0 p, In r0 revs -> In p (unrefs r0) ->
            now - unrefTime r0 < QuotaReclamationMinUnrefAge)
    by (intros r0 p Hr0; apply Hyoung; now right).
  cbn [List.filter]. destruct (watermark f <? revision r); [|now apply IH].
  cbn [flat_map]. rewrite (IH Hrest), app_nil_r.
  unfold oldEnough. destruct (Z.leb_spec (unrefTime r + QuotaReclamationMinUnrefAge) now)
    as [Hold|_]; [|reflexivity].
  destruct (unrefs r) as [|p ps] eqn:Hp; [reflexivity|].
  exfalso. specialize (Hyoung r p (or_introl eq_refl)).
  rewrite Hp in Hyoung. specialize (Hyoung (or_introl eq_refl)). lia.
Qed.

(** C4. If every pointer the folder's revisions unreferenced is younger
    than [MinUnrefAge] at the current clock, a reclamation run completes
    without error, makes no store call and leaves the store, and with it the
    map from BlockID to (RefNonce -> status), exactly as it was. *)
Theorem young_unrefs_leave_store_unchanged (now : Z) (f : Folder S) :
  (forall r p, In r (history f) -> In p (unrefs r) ->
     now - unrefTime r < QuotaReclamationMinUnrefAge) ->
  (run now f).1 = None
  /\ batch now f = []
  /\ store (run now f).2 = store f
  /\ allReferences (store (run now f).2) = allReferences (store f).
Proof.
  intros Hyoung. unfold run, batch.
  rewrite (eligible_nil_young now f Hyoung), take_nil. cbn.
  repeat split; reflexivity.
Qed.

End Run.

(** *** What [totalBlockRefs] counts *)

Lemma totalBlockRefs_insert (m : BlockRefs) id refs :
  m !! id = None ->
  totalBlockRefs (<[id := refs]> m) = (totalBlockRefs m + size refs)%nat.
Proof.
  intros Hm. unfold totalBlockRefs.
  rewrite map_fold_insert_L; [reflexivity| |exact Hm].
  intros. lia.
Qed.


(** X10. If every block of the map has between [lo] and [hi] references,
    the total lies between [lo] and [hi] times the number of blocks. In
    particular, when no block has more than one reference the total is at
    most the number of blocks, and when every block has exactly one it is
    the number of blocks. *)
Theorem totalBlockRefs_bounds (m : BlockRefs) (lo hi : nat) :
  (forall id refs, m !! id = Some refs -> (lo <= size refs <= hi)%nat) ->
  (lo * size m <= totalBlockRefs m <= hi * size m)%nat.
Proof.
  induction m as [|id refs m Hfresh IH] using map_ind; intros Hrefs.
  - unfold totalBlockRefs. rewrite map_fold_empty, map_size_empty. lia.
  - rewrite totalBlockRefs_insert, map_size_insert_None by exact Hfresh.
    assert (lo <= size refs <= hi)%nat
      by (apply (Hrefs id); apply lookup_insert_eq).
    assert (lo * size m <= totalBlockRefs m <= hi * size m)%nat.
    { apply IH. intros id' refs' Hm. apply (Hrefs id').
      rewrite lookup_insert_ne; [exact Hm|]. intros ->. congruence. }
    nia.
Qed.

(** X11. The total is additive: over two maps that share no BlockID it is
    the sum of the two totals, so blocks added under new BlockIDs raise the
    count by exactly their references. *)
Theorem totalBlockRefs_union (m1 m2 : BlockRefs) :
  m1 ##ₘ m2 ->
  totalBlockRefs (m1 ∪ m2) = (totalBlockRefs m1 + totalBlockRefs m2)%nat.
Proof.
  induction m1 as [|id refs m1 Hfresh IH] using map_ind; intros Hdisj.
  - rewrite (left_id ∅ (∪)). unfold totalBlockRefs at 2.
    rewrite map_fold_empty. reflexivity.
  - apply map_disjoint_insert_l in Hdisj as [Hm2 Hdisj].
    rewrite <- insert_union_l.
    rewrite !totalBlockRefs_insert; [rewrite IH by exact Hdisj; lia|exact Hfresh|].
    apply lookup_union_None. now split.
Qed.
End Engine.

Arguments Folder {BlockID BlockRefNonce} S.

(** *** A folder of the tests' shape

    Block 4 is the folder's current root; revision 1, written at time 0,
    unreferenced blocks 1, 2 and 3. [MinUnrefAge] is 10 and a run may take
    2 pointers. *)

Definition primary (id : N) : BlockPointer N N := mkBlockPointer id 0%N.

Definition oneLiveRef : gmap N blockRefLocalStatus :=
  {[ 0%N := liveBlockRef ]}.

Definition fourBlocks : gmap N (gmap N blockRefLocalStatus) :=
  {[ 1%N := oneLiveRef; 2%N := oneLiveRef; 3%N := oneLiveRef;
     4%N := oneLiveRef ]}.

(** A store double for the examples, in the manner of a test mock: it
    answers the enumeration with the reference map it was given and counts
    the remove-reference calls it receives, without acting on them. It
    stands for no store of the repository. *)
Record CountingStore : Type := mkCountingStore {
  held : gmap N (gmap N blockRefLocalStatus);
  removeCalls : nat
}.

#[export] Instance countingStore
    : BlockStore (BlockID := N) (BlockRefNonce := N) CountingStore := {|
  removeReference := fun _ _ s =>
    (None, {| held := held s; removeCalls := S (removeCalls s) |});
  allReferences := held
|}.

Definition testFolder : Folder CountingStore :=
  {| store := {| held := fourBlocks; removeCalls := 0 |};
     history := [mkRevision 1 0 [primary 1; primary 2; primary 3]];
     watermark := 0 |}.

(** At clock 100 the three pointers are old enough and the first two make
    the batch; at clock 5 none is. *)
Example batch_of_testFolder :
  batch 10 2 100 testFolder = [primary 1; primary 2]
  /\ removeCalls (store (run 10 2 100 testFolder).2) = 2%nat
  /\ batch 10 2 5 testFolder = [].
Proof. repeat split; reflexivity. Qed.

Lemma young_unrefs_leave_store_unchanged_witness :
  (run 10 2 5 testFolder).1 = None
  /\ batch 10 2 5 testFolder = []
  /\ store (run 10 2 5 testFolder).2 = store testFolder
  /\ allReferences (store (run 10 2 5 testFolder).2)
     = allReferences (store testFolder).
Proof.
  apply (young_unrefs_leave_store_unchanged 10 2 5 testFolder).
  intros r p [<-|[]] _. cbn. lia.
Defined.

Lemma totalBlockRefs_bounds_witness :
  (1 * size fourBlocks <= totalBlockRefs fourBlocks <= 1 * size fourBlocks)%nat.
Proof.
  apply (totalBlockRefs_bounds fourBlocks 1 1).
  assert (Hall : map_Forall (fun _ refs => (1 <= size refs <= 1)%nat)
                   fourBlocks)
    by (apply (bool_decide_unpack _); vm_compute; exact I).
  exact Hall.
Defined.

Lemma totalBlockRefs_union_witness :
  totalBlockRefs (({[ 7%N := oneLiveRef ]} : gmap N _) ∪ fourBlocks)
  = (totalBlockRefs ({[ 7%N := oneLiveRef ]} : gmap N _)
     + totalBlockRefs fourBlocks)%nat.
Proof.
  apply totalBlockRefs_union.
  apply map_disjoint_singleton_l. vm_compute. reflexivity.
Defined.

End QuotaReclamation.
